(** * CRDTree replay engine ([crdtree/src/State.ts])

    A shallow embedding of the [State] class: the operation log, the
    high-water clock, the seen-set and the container store, with the
    methods of the class written in a small state-and-exception monad
    over the instance's fields. *)

From Stdlib Require Import ZArith String Sorted.
From stdpp Require Import gmap strings list fin_maps pretty sorting.

Open Scope string_scope.
Open Scope Z_scope.

(** ** Identities, indices, constants *)

(** [ID] is a string in the source ([typeof change === "string"] tells an
    [ID] from a [Change]). *)
Abbreviation ID := string.

(** [Index = string | number]: a key of a map container or a position of a
    list container. *)
Inductive Index : Type :=
| IKey (k : string)
| IPos (n : Z).

#[global] Instance Index_eq_dec : EqDecision Index.
Proof. solve_decision. Defined.

#[global] Instance Index_countable : Countable Index.
Proof.
  refine (inj_countable'
            (fun i => match i with IKey k => inl k | IPos n => inr n end)
            (fun s => match s with inl k => IKey k | inr n => IPos n end) _).
  by intros [].
Defined.

(** Modelled from the spec: [Constants.ts] is not under src/; the spec names
    two sentinel identities, [ROOT] (the document's single top-level slot)
    and [ROOT_PARENT] (the virtual container holding [ROOT]). *)
Definition ROOT : ID := "ROOT".
Definition ROOT_PARENT : ID := "ROOT_PARENT".

(** ** Primitives, entries, containers *)

Inductive ObjectKind : Type := OTHER | OBJECT | ARRAY.

#[global] Instance ObjectKind_eq_dec : EqDecision ObjectKind.
Proof. solve_decision. Defined.

(** Payload values ([any] in the source). *)
Inductive Value : Type :=
| VUndefined
| VNull
| VBool (b : bool)
| VNumber (n : Z)
| VString (s : string).

#[global] Instance Value_eq_dec : EqDecision Value.
Proof. solve_decision. Defined.

(** [BackendPrimitive]: the item an operation introduces. *)
Record BackendPrimitive : Type := mkPrimitive {
  item_name : ID;
  item_value : Value;
  item_kind : ObjectKind
}.

(** [Entry]: a slot of a container. The root slot starts out with an
    [undefined] name. *)
Record Entry : Type := mkEntry {
  name : option ID;
  value : Value;
  kind : ObjectKind;
  deleted : bool
}.

#[global] Instance Entry_eq_dec : EqDecision Entry.
Proof. solve_decision. Defined.

(** [MetaObject = Map<Index, Entry> | Entry[]]. *)
Inductive MetaObject : Type :=
| MMap (m : gmap Index Entry)
| MList (l : list Entry).

#[global] Instance MetaObject_eq_dec : EqDecision MetaObject.
Proof. solve_decision. Defined.

(** ** Actions and changes *)

Record BackendAssignment : Type := mkAssignment {
  a_item : BackendPrimitive; a_at : Index; a_in : ID
}.

Record BackendListAssignment : Type := mkListAssignment {
  la_item : BackendPrimitive; la_at : Z; la_in : ID
}.

(** The anchor of an insertion is read by [findInsertionIndex] only. *)
Record BackendInsertion : Type := mkInsertion {
  i_item : BackendPrimitive; i_anchor : option ID; i_in : ID
}.

Record Deletion : Type := mkDeletion {
  d_at : ID; d_in : ID
}.

Inductive BackendAction : Type :=
| Assign (a : BackendAssignment)
| ListAssign (a : BackendListAssignment)
| Insert (a : BackendInsertion)
| Delete (a : Deletion).

(** [Change = {action, clock, pid, dep}], generic in the action it carries. *)
Record Change_ (A : Type) : Type := mkChange {
  action : A;
  clock : Z;
  pid : string;
  dep : option ID
}.
Arguments mkChange {A} _ _ _ _.
Arguments action {A} _.
Arguments clock {A} _.
Arguments pid {A} _.
Arguments dep {A} _.

Abbreviation BackendChange := (Change_ BackendAction).

(** Modelled from the spec: [Change.toID] is not under src/; an identity is
    a globally unique token of one operation, fixed by its site token and
    its clock. *)
Definition toID {A} (change : Change_ A) : ID :=
  pid change +:+ "@" +:+ pretty (clock change).

(** Modelled from the spec: [Change.changeSortCompare] is not under src/;
    it compares by clock first, then by the site token when the clocks are
    equal, and never reports a tie. *)
Definition changeSortCompare {A} (a b : Change_ A) : Z :=
  if clock a <? clock b then -1
  else if clock b <? clock a then 1
  else if String.ltb (pid a) (pid b) then -1
  else 1.

(** [Array.prototype.sort(compare)]: a stable sort. A later element [y]
    goes in front of an earlier element [x] only when [compare y x] is
    negative, so elements the comparator does not tell apart keep the order
    they came in. *)
Fixpoint sort_insert {A} (compare : A -> A -> Z) (x : A) (l : list A) : list A :=
  match l with
  | [] => [x]
  | y :: l' => if compare y x <? 0 then y :: sort_insert compare x l' else x :: l
  end.

Fixpoint sort {A} (compare : A -> A -> Z) (l : list A) : list A :=
  match l with
  | [] => []
  | x :: l' => sort_insert compare x (sort compare l')
  end.

(** ** Errors and the monad of the class *)

Inductive Error : Type :=
| RangeError (msg : string)
| EvalError (msg : string).

Inductive Outcome (A : Type) : Type :=
| Returned (a : A)
| Threw (e : Error).
Arguments Returned {A} _.
Arguments Threw {A} _.

(** The private fields of a [State] instance. *)
Record State : Type := mkState {
  objects : gmap ID MetaObject;
  _seen : gset ID;
  this_clock : Z;
  changes : list BackendChange
}.

Definition set_objects (o : gmap ID MetaObject) (st : State) : State :=
  mkState o (_seen st) (this_clock st) (changes st).
Definition set_seen (s : gset ID) (st : State) : State :=
  mkState (objects st) s (this_clock st) (changes st).
Definition set_clock (c : Z) (st : State) : State :=
  mkState (objects st) (_seen st) c (changes st).
Definition set_changes (cs : list BackendChange) (st : State) : State :=
  mkState (objects st) (_seen st) (this_clock st) cs.

(** A method either returns or throws, and leaves the fields as they were
    at that point. *)
Definition M (A : Type) : Type := State -> Outcome A * State.

Definition ret {A} (a : A) : M A := fun st => (Returned a, st).
Definition throw {A} (e : Error) : M A := fun st => (Threw e, st).
Definition bind {A B} (m : M A) (k : A -> M B) : M B :=
  fun st => match m st with
            | (Returned a, st') => k a st'
            | (Threw e, st') => (Threw e, st')
            end.
Definition get : M State := fun st => (Returned st, st).
Definition modify (f : State -> State) : M unit := fun st => (Returned tt, f st).

Declare Scope method_scope.
Delimit Scope method_scope with method.
Bind Scope method_scope with M.
Notation "x <- m ;; k" := (bind m (fun x => k))
  (at level 100, m at next level, k at level 200, right associativity) : method_scope.
Notation "m ;; k" := (bind m (fun _ => k))
  (at level 100, k at level 200, right associativity) : method_scope.
Open Scope method_scope.

(** [list.forEach(f)]: stops at the first call that throws. *)
Fixpoint forEach {A} (f : A -> M unit) (l : list A) : M unit :=
  match l with
  | [] => ret tt
  | x :: l' => f x ;; forEach f l'
  end.

(** ** Imported helpers

    [ArrayUtils.ts], [Util.ts], [Change.ts] and [Action.ts] are not under
    src/. What the spec fixes of them is modelled below; what it leaves open
    is an interface, and the engine is written over any implementation of
    it. *)
Class Imports : Type := {
  (** actions as the authoring component writes them, before normalisation *)
  FrontendAction : Type;
  (** the action part of [ensureBackendChange], given the change's identity *)
  toBackendAction : ID -> FrontendAction -> BackendAction;
  (** [Util.ensureNumber] *)
  ensureNumber : Index -> Outcome Z;
  (** [ArrayUtils.findInsertionIndex] *)
  findInsertionIndex : list Entry -> BackendInsertion -> Z
}.

(** A change as it is submitted: its action is in either form. *)
Abbreviation Change := (Change_ (FrontendAction + BackendAction)).

(** The slot an item occupies: [{name, value, kind, deleted: false}]. *)
Definition entryOf (item : BackendPrimitive) : Entry :=
  mkEntry (Some (item_name item)) (item_value item) (item_kind item) false.

(** The physical slot of the [n]-th live entry, counting from 0. *)
Fixpoint findLiveIndex (l : list Entry) (n : nat) : option nat :=
  match l with
  | [] => None
  | e :: l' =>
      if deleted e then S <$> findLiveIndex l' n
      else match n with
           | O => Some O
           | S k => S <$> findLiveIndex l' k
           end
  end.

(** Modelled from the spec: [ArrayUtils.findIndexInTombstoneArray] is not
    under src/; it scans from the start counting only non-tombstoned
    entries and returns the physical slot of the live entry at the logical
    index; out of range yields an absent result. *)
Definition findIndexInTombstoneArray (l : list Entry) (index : Z) : option nat :=
  if index <? 0 then None else findLiveIndex l (Z.to_nat index).

(** Modelled from the spec: [ArrayUtils.assignToList] is not under src/; it
    resolves the logical index to a physical slot first and overwrites that
    slot with the new entry. *)
Definition assignToList (l : list Entry) (at_ : Z) (item : BackendPrimitive) : list Entry :=
  match findIndexInTombstoneArray l at_ with
  | Some i => <[i := entryOf item]> l
  | None => l
  end.

(** Modelled from the spec: [ArrayUtils.insertInList] is not under src/; it
    splices a new live entry in at the physical index. *)
Definition insertInList (l : list Entry) (index : Z) (item : BackendPrimitive) : list Entry :=
  take (Z.to_nat index) l ++ entryOf item :: drop (Z.to_nat index) l.

(** ** The operation interpreter *)

Definition getMetaObject (name : ID) : M MetaObject :=
  st <- get ;;
  match objects st !! name with
  | Some currentMap => ret currentMap
  | None => throw (RangeError "Indexable element does not exist at this index")
  end.

(** [this.objects.set(name, container)], also the write-back of a container
    that was mutated in place. *)
Definition setMetaObject (name : ID) (o : MetaObject) : M unit :=
  modify (fun st => set_objects (<[name := o]> (objects st)) st).

Definition createMetaObject (item : BackendPrimitive) : M unit :=
  match item_kind item with
  | OBJECT => setMetaObject (item_name item) (MMap ∅)
  | ARRAY => setMetaObject (item_name item) (MList [])
  | OTHER => ret tt
  end.

Definition applyAssignment (assignment : BackendAssignment) : M unit :=
  let item := a_item assignment in
  let at_ := a_at assignment in
  let _in := a_in assignment in
  parent <- getMetaObject _in ;;
  match parent with
  | MList _ => throw (EvalError "Key assignment into a list should never happen")
  | MMap m => setMetaObject _in (MMap (<[at_ := entryOf item]> m))
  end ;;
  createMetaObject item.

Definition applyListAssignment (assignment : BackendListAssignment) : M unit :=
  let item := la_item assignment in
  let at_ := la_at assignment in
  let _in := la_in assignment in
  parent <- getMetaObject _in ;;
  match parent with
  | MList l => setMetaObject _in (MList (assignToList l at_ item))
  | MMap _ => throw (EvalError "Index assignment into an object should never happen")
  end ;;
  createMetaObject item.

(** [{...entry, deleted: true}] on the entries named [at_]. *)
Definition tombstone (at_ : ID) (entry : Entry) : Entry :=
  if decide (name entry = Some at_)
  then mkEntry (name entry) (value entry) (kind entry) true
  else entry.

Definition applyDeletion (deletion : Deletion) : M unit :=
  let at_ := d_at deletion in
  let _in := d_in deletion in
  parent <- getMetaObject _in ;;
  match parent with
  | MList l => setMetaObject _in (MList (tombstone at_ <$> l))
  | MMap m => setMetaObject _in (MMap (tombstone at_ <$> m))
  end.

Section Engine.
Context `{Imports}.

Definition applyInsertion (insertion : BackendInsertion) : M unit :=
  let item := i_item insertion in
  let _in := i_in insertion in
  parent <- getMetaObject _in ;;
  match parent with
  | MList l =>
      let index := findInsertionIndex l insertion in
      setMetaObject _in (MList (insertInList l index item))
  | MMap _ => throw (RangeError "Cannot insert into a non-list")
  end ;;
  createMetaObject item.

Definition applyChange (change : BackendChange) : M unit :=
  match action change with
  | Assign a => applyAssignment a
  | ListAssign a => applyListAssignment a
  | Insert a => applyInsertion a
  | Delete a => applyDeletion a
  end.

(** ** The replay engine *)

(** [seen(change | id)]. *)
Definition seen {A} (st : State) (x : Change_ A + ID) : bool :=
  let id := match x with inr id => id | inl change => toID change end in
  bool_decide (id ∈ _seen st).

Definition witness {A} (cs : list (Change_ A)) : M unit :=
  modify (fun st => set_seen (list_to_set (toID <$> cs) ∪ _seen st) st).

(** [this.clock + 1]. Clocks are whole numbers of magnitude below [2^53],
    where the addition of the source's numbers is exact. *)
Definition next (st : State) : Z := this_clock st + 1.

Definition latest (st : State) : option ID :=
  toID <$> last (changes st).

(** [!change.dep || this.seen(change.dep)]: an absent dependency and the
    empty string are both falsy. *)
Definition ready (st : State) (change : BackendChange) : bool :=
  match dep change with
  | None => true
  | Some d => if decide (d = "") then true else seen (A:=BackendAction) st (inr d)
  end.

Definition applyChanges (cs : list BackendChange) : M unit :=
  st <- get ;;
  forEach applyChange (filter (fun change => ready st change) cs).

(** The store [reapplyAllChanges] starts from: [ROOT_PARENT] holds the one
    slot [ROOT], tombstoned. *)
Definition root : Entry := mkEntry None VUndefined OTHER true.
Definition rootParent : gmap Index Entry := {[ IKey ROOT := root ]}.
Definition emptyObjects : gmap ID MetaObject := {[ ROOT_PARENT := MMap rootParent ]}.

Definition reapplyAllChanges : M unit :=
  modify (set_objects emptyObjects) ;;
  st <- get ;;
  applyChanges (changes st).

(** [addChange] calls it on a batch that is not empty, so [changes[changes.length - 1]]
    is there. *)
Definition appendChanges (cs : list BackendChange) : M unit :=
  modify (fun st => set_clock (default 0 (clock <$> last cs)) st) ;;
  modify (fun st => set_changes (changes st ++ cs) st).

Definition insertChanges (cs : list BackendChange) : M unit :=
  modify (fun st => set_changes (changes st ++ cs) st) ;;
  modify (fun st => set_changes (sort changeSortCompare (changes st)) st).

(** Modelled from the spec: [Change.ensureBackendChange] is not under src/;
    it normalises an operation into the log's representation: the clock,
    the site token and the dependency stay, a backend action stays, a
    frontend action is converted. *)
Definition ensureBackendChange (change : Change) : BackendChange :=
  mkChange
    (match action change with
     | inl a => toBackendAction (toID change) a
     | inr a => a
     end)
    (clock change) (pid change) (dep change).

(** The operations of a submitted batch that are accepted, as the log
    holds them. *)
Definition accepted (st : State) (cs : list Change) : list BackendChange :=
  sort changeSortCompare
       (ensureBackendChange <$> filter (fun change => negb (seen st (inl change))) cs).

Definition addChange (cs : list Change) : M (list BackendChange) :=
  st <- get ;;
  let backendChanges := accepted st cs in
  witness backendChanges ;;
  match backendChanges with
  | first :: _ =>
      st' <- get ;;
      if this_clock st' <? clock first
      then appendChanges backendChanges ;; applyChanges backendChanges
      else insertChanges backendChanges ;; reapplyAllChanges
  | [] => ret tt
  end ;;
  ret backendChanges.

(** [new State(changes)]. *)
Definition newState (cs : list BackendChange) : Outcome unit * State :=
  (witness cs ;; reapplyAllChanges)
    (mkState ∅ ∅ (default 0 (clock <$> last cs)) cs).

Definition listChanges (st : State) : list BackendChange := changes st.

(** ** The tree navigator *)

(** [objects.get(name)] for a running identity that may be [undefined] or
    any stored value: only a string can be a key of the store. *)
Definition getMetaObjectOf (name : Value) : M MetaObject :=
  match name with
  | VString id => getMetaObject id
  | _ => throw (RangeError "Indexable element does not exist at this index")
  end.

Definition nameValue (n : option ID) : Value :=
  match n with
  | Some id => VString id
  | None => VUndefined
  end.

(** [entry?.deleted ? undefined :
     entry?.kind === ObjectKind.OTHER ? entry?.name : entry?.value]. *)
Definition entryIdentity (entry : option Entry) : Value :=
  match entry with
  | None => VUndefined
  | Some e =>
      if deleted e then VUndefined
      else if decide (kind e = OTHER) then nameValue (name e)
      else value e
  end.

Definition fetchEntry (metaObject : MetaObject) (index : Index) : M (option Entry) :=
  match metaObject with
  | MMap m => ret (m !! index)
  | MList l =>
      match ensureNumber index with
      | Returned n => ret (i ← findIndexInTombstoneArray l n; l !! i)
      | Threw e => throw e
      end
  end.

Definition resolveStep (name : Value) (index : Index) : M Value :=
  metaObject <- getMetaObjectOf name ;;
  entry <- fetchEntry metaObject index ;;
  ret (entryIdentity entry).

(** [indices.reduce(step, ROOT_PARENT)]. *)
Fixpoint reduce (indices : list Index) (name : Value) : M Value :=
  match indices with
  | [] => ret name
  | index :: rest => name' <- resolveStep name index ;; reduce rest name'
  end.

Definition getElementImpl (indices : list Index) : M Value :=
  reduce indices (VString ROOT_PARENT).

Definition getElement (indices : list Index) : M Value :=
  getElementImpl (IKey ROOT :: indices).

(** [[ROOT, ...indices].slice(0, -1)] drops the last index. *)
Definition getParentElement (indices : list Index) : M Value :=
  element <- getElementImpl (removelast (IKey ROOT :: indices)) ;;
  getMetaObjectOf element ;;
  ret element.

End Engine.

(** ** A reference implementation of the imports

    Used to run the engine on concrete logs. *)

(** Reading an identity back into its clock and site token. *)
Fixpoint lastAt (s : string) (i : nat) : option nat :=
  match s with
  | EmptyString => None
  | String c s' =>
      match lastAt s' (S i) with
      | Some j => Some j
      | None => if Ascii.eqb c (Ascii.ascii_of_nat 64) then Some i else None
      end
  end.

Definition digitOf (c : Ascii.ascii) : option Z :=
  let n := Z.of_N (Ascii.N_of_ascii c) in
  if (48 <=? n) && (n <=? 57) then Some (n - 48) else None.

Fixpoint readDigits (s : string) (acc : Z) : Z :=
  match s with
  | EmptyString => acc
  | String c s' =>
      match digitOf c with
      | Some d => readDigits s' (10 * acc + d)
      | None => acc
      end
  end.

Definition readNumber (s : string) : Z :=
  match s with
  | EmptyString => 0
  | String c s' =>
      if Ascii.eqb c (Ascii.ascii_of_nat 45) then - readDigits s' 0
      else readDigits s 0
  end.

Definition fromID (id : ID) : Z * string :=
  match lastAt id 0 with
  | Some i => (readNumber (String.substring (S i) (String.length id - S i) id),
               String.substring 0 i id)
  | None => (0, id)
  end.

(** Modelled from the spec: the total order over identities, clock first,
    then the site token. *)
Definition idBefore (a b : ID) : bool :=
  let '(ca, pa) := fromID a in
  let '(cb, pb) := fromID b in
  (ca <? cb) || ((ca =? cb) && String.ltb pa pb).

(** The slot of the entry that carries the identity [at_]. *)
Fixpoint findName (at_ : ID) (l : list Entry) : option nat :=
  match l with
  | [] => None
  | e :: l' => if decide (name e = Some at_) then Some O else S <$> findName at_ l'
  end.

(** How many leading entries sort before the identity [new]. *)
Fixpoint skipEarlier (new : ID) (l : list Entry) : nat :=
  match l with
  | [] => O
  | e :: l' =>
      match name e with
      | Some n => if idBefore n new then S (skipEarlier new l') else O
      | None => O
      end
  end.

(** Modelled from the spec: [ArrayUtils.findInsertionIndex] is not under
    src/; it locates the anchor entry, then walks forward past the entries
    whose identity sorts before the new entry's identity. *)
Definition findInsertionIndexRef (l : list Entry) (insertion : BackendInsertion) : Z :=
  let start :=
    match i_anchor insertion with
    | None => O
    | Some a => match findName a l with Some i => S i | None => O end
    end in
  Z.of_nat (start + skipEarlier (item_name (i_item insertion)) (drop start l)).

(** Modelled from the spec: [Util.ensureNumber] is not under src/; a logical
    index is a key or a position, and only a position is a number. *)
Definition ensureNumberRef (index : Index) : Outcome Z :=
  match index with
  | IPos n => Returned n
  | IKey _ => Threw (RangeError "Expected a number")
  end.

(** Operations arrive in backend form already: there is no frontend
    action to convert. *)
#[global] Instance referenceImports : Imports := {|
  FrontendAction := Empty_set;
  toBackendAction := fun _ a => match a with end;
  ensureNumber := ensureNumberRef;
  findInsertionIndex := findInsertionIndexRef
|}.

(** ** Instances, histories and the vocabulary of the properties *)

(** Running a method for its final fields. *)
Definition fields {A} (r : Outcome A * State) : State := snd r.

(** [state.addChange(batch)] on an instance, keeping the instance. *)
Definition submit `{Imports} (cs : list Change) (st : State) : State :=
  fields (addChange cs st).

(** Submitting the batches one after the other. *)
Definition submitAll `{Imports} (batches : list (list Change)) (st : State) : State :=
  foldl (fun st cs => submit cs st) st batches.

Definition initial `{Imports} : State := fields (newState []).

(** The total order of the log: clock first, then the site token. *)
Definition changeLe {A} (a b : Change_ A) : Prop :=
  clock a < clock b \/ (clock a = clock b /\ String.leb (pid a) (pid b) = true).

(** What [addChange] hands back once the apply pass is over. *)
Definition returning {A} (a : A) (r : Outcome unit * State) : Outcome A * State :=
  match r with
  | (Returned _, st) => (Returned a, st)
  | (Threw e, st) => (Threw e, st)
  end.

(** The instances a program can hold: built by the constructor and driven
    by [addChange], whether a call returned or threw. *)
Inductive reachable `{Imports} : State -> Prop :=
| reachable_new cs r st :
    newState cs = (r, st) -> reachable st
| reachable_add cs st r st' :
    reachable st -> addChange cs st = (r, st') -> reachable st'.

(** The fields of the instance when [addChange] starts its apply pass:
    the batch is seen and in the log, and a rebuild has emptied the
    store. *)
Definition staged `{Imports} (st : State) (cs : list Change) : State :=
  let batch := accepted st cs in
  let seen' := list_to_set (toID <$> batch) ∪ _seen st in
  match batch with
  | [] => set_seen seen' st
  | first :: _ =>
      if this_clock st <? clock first
      then mkState (objects st) seen' (default 0 (clock <$> last batch))
                   (changes st ++ batch)
      else mkState emptyObjects seen' (this_clock st)
                   (sort changeSortCompare (changes st ++ batch))
  end.

(** The operations that apply pass goes through: the batch on the fast
    path, the whole log on a rebuild. *)
Definition pass `{Imports} (st : State) (cs : list Change) : list BackendChange :=
  let batch := accepted st cs in
  match batch with
  | [] => []
  | first :: _ =>
      if this_clock st <? clock first then batch
      else sort changeSortCompare (changes st ++ batch)
  end.

(** The operation introduces a container under the identity [c]. *)
Definition creates (a : BackendAction) (c : ID) : bool :=
  let creating (item : BackendPrimitive) :=
    bool_decide (item_name item = c) && negb (bool_decide (item_kind item = OTHER)) in
  match a with
  | Assign a => creating (a_item a)
  | ListAssign a => creating (la_item a)
  | Insert a => creating (i_item a)
  | Delete _ => false
  end.

(** The operation assigns key [k] of container [c]. *)
Definition assigns (a : BackendAction) (c : ID) (k : Index) : bool :=
  match a with
  | Assign a => bool_decide (a_in a = c) && bool_decide (a_at a = k)
  | _ => false
  end.

(** The entry in physical slot [i] of a container: a key of a map, a
    position of a list. *)
Definition slot (o : MetaObject) (i : Index) : option Entry :=
  match o, i with
  | MMap m, _ => m !! i
  | MList l, IPos n => if n <? 0 then None else l !! Z.to_nat n
  | MList _, IKey _ => None
  end.

(** Two containers of one shape, with as many slots. *)
Definition sameShape (o o' : MetaObject) : Prop :=
  match o, o' with
  | MMap _, MMap _ => True
  | MList l, MList l' => length l = length l'
  | _, _ => False
  end.

(** No live entry of the container carries the identity [at_]. *)
Definition settled (at_ : ID) (o : MetaObject) : Prop :=
  forall i e, slot o i = Some e -> name e = Some at_ -> deleted e = true.

(** What a container [o'] keeps of a container [o]: the tombstoned
    entries of a list stay, flagged, in their order, and no slot goes; the
    keys of a map stay, and so does the tombstoned entry under every key
    that is not [exempt]. *)
Definition keeps (exempt : Index -> bool) (o o' : MetaObject) : Prop :=
  match o, o' with
  | MList l, MList l' =>
      filter (fun e => deleted e = true) l `sublist_of` l' /\
      (length l <= length l')%nat
  | MMap m, MMap m' =>
      (forall k, is_Some (m !! k) -> is_Some (m' !! k)) /\
      (forall k e, m !! k = Some e -> deleted e = true -> exempt k = false ->
         m' !! k = Some e)
  | _, _ => False
  end.

(** The entry stored under [key] of the map container [c]. *)
Definition entryAt (st : State) (c : ID) (key : string) : option Entry :=
  match objects st !! c with
  | Some (MMap m) => m !! IKey key
  | _ => None
  end.

(** The greatest clock of a log; 0 for the empty log, as in the
    constructor. *)
Definition greatestClock (cs : list BackendChange) : Z :=
  match cs with
  | [] => 0
  | c :: cs' => foldr (fun c' acc => Z.max (clock c') acc) (clock c) cs'
  end.

(** ** Concrete operations and logs *)

(** An operation of site [p] at clock [c] that assigns [key] of container
    [_in]; the item it introduces carries the operation's identity, and a
    container item refers to itself. *)
Definition assignOp (p : string) (c : Z) (d : option ID) (_in : ID) (key : string)
    (v : Value) (k : ObjectKind) : Change :=
  let id := toID (mkChange tt c p d) in
  mkChange
    (inr (Assign (mkAssignment
                    (mkPrimitive id (match k with OTHER => v | _ => VString id end) k)
                    (IKey key) _in)))
    c p d.

Definition deleteOp (p : string) (c : Z) (d : option ID) (_in : ID) (target : ID) : Change :=
  mkChange (inr (Delete (mkDeletion target _in))) c p d.

(** Two sites, [a] and [b], start a document at the same time; each then
    sets the key [t] of the root object that wins. *)
Definition a1 : Change := assignOp "a" 1 None ROOT_PARENT ROOT VUndefined OBJECT.
Definition b1 : Change := assignOp "b" 1 None ROOT_PARENT ROOT VUndefined OBJECT.
Definition a2 : Change := assignOp "a" 2 (Some "b@1") "b@1" "t" (VString "A") OTHER.
Definition b2 : Change := assignOp "b" 2 (Some "b@1") "b@1" "t" (VString "B") OTHER.

(** The same three batches reach two replicas in two orders; on both,
    every operation arrives with or after its dependency. *)
Definition replicaX : State := submitAll [[a1]; [b1; b2]; [a2]] initial.
Definition replicaY : State := submitAll [[b1; b2]; [a1]; [a2]] initial.

(** A root object, an operation on it that declares the empty string as
    its dependency, and one that declares none. *)
Definition r1 : Change := assignOp "r" 1 None ROOT_PARENT ROOT VUndefined OBJECT.
Definition rooted : State := submitAll [[r1]] initial.
Definition late : Change := assignOp "b" 3 None "r@1" "j" (VNumber 8) OTHER.

(** A batch whose first operation names a dependency nobody has sent and
    whose second operation depends on the first. *)
Definition orphan : Change := assignOp "b" 2 (Some "z@1") "r@1" "j" (VNumber 8) OTHER.
Definition follower : Change := assignOp "b" 3 (Some "b@2") "r@1" "k" (VNumber 9) OTHER.

(** A key of the root object is set, deleted, and set again. *)
Definition k1 : Change := assignOp "a" 2 (Some "r@1") "r@1" "k" (VNumber 1) OTHER.
Definition del : Change := deleteOp "a" 3 (Some "a@2") "r@1" "a@2".
Definition k2 : Change := assignOp "a" 4 (Some "a@3") "r@1" "k" (VNumber 2) OTHER.
Definition keyed : State := submitAll [[r1]; [k1]] initial.
Definition deletedKey : State := submitAll [[r1]; [k1]; [del]] initial.

(** An operation that arrives before the dependency it names, which has
    the lower clock. *)
Definition held : Change := assignOp "a" 3 (Some "b@2") "r@1" "k" (VNumber 7) OTHER.
Definition awaited : Change := assignOp "b" 2 (Some "r@1") "r@1" "j" (VNumber 8) OTHER.
Definition holding : State := submitAll [[r1]; [held]] initial.

(** A store with a list-shaped root. *)
Definition listRoot : Change := assignOp "a" 1 None ROOT_PARENT ROOT VUndefined ARRAY.
Definition listDoc : State := submitAll [[listRoot]] initial.

(** Operations addressed to a container of the wrong shape. *)
Definition keyIntoList : BackendChange :=
  ensureBackendChange (assignOp "b" 2 (Some "a@1") "a@1" "k" (VNumber 1) OTHER).
Definition slotIntoMap : BackendChange :=
  mkChange (ListAssign (mkListAssignment (mkPrimitive "b@2" (VNumber 1) OTHER) 0 "r@1"))
           2 "b" (Some "r@1").
Definition insertIntoMap : BackendChange :=
  mkChange (Insert (mkInsertion (mkPrimitive "b@2" (VNumber 1) OTHER) None "r@1"))
           2 "b" (Some "r@1").

(** A deletion that names a container no operation has introduced. *)
Definition strayDelete : Change := deleteOp "a" 1 None "c@9" "x@1".

(** ** Vocabulary of the further properties *)

(** The store is what a rebuild of the log gives, and that rebuild
    returns. *)
Definition replayed `{Imports} (st : State) : Prop :=
  reapplyAllChanges st = (Returned tt, st).

(** An instance that holds a store and nothing else. *)
Definition storeOnly (o : gmap ID MetaObject) : State := mkState o ∅ 0 [].

(** The container an operation addresses ([in]). *)
Definition parentOf (a : BackendAction) : ID :=
  match a with
  | Assign a => a_in a
  | ListAssign a => la_in a
  | Insert a => i_in a
  | Delete a => d_in a
  end.

(** What [applyDeletion] makes of the parent container. *)
Definition tombstoneIn (at_ : ID) (o : MetaObject) : MetaObject :=
  match o with
  | MList l => MList (tombstone at_ <$> l)
  | MMap m => MMap (tombstone at_ <$> m)
  end.

(** An operation of the log as a caller submits it. *)
Definition asSubmitted `{Imports} (c : BackendChange) : Change :=
  mkChange (inr (action c)) (clock c) (pid c) (dep c).


(** Strictly ascending in the total order. *)
Definition changeLt {A} (a b : Change_ A) : Prop := changeSortCompare a b < 0.

(** An outcome without the value returned. *)
Definition void {A} (r : Outcome A) : Outcome unit :=
  match r with
  | Returned _ => Returned tt
  | Threw e => Threw e
  end.

(** The parent an operation can be applied to: a map for an [Assign], a
    list for a [ListAssign] and an [Insert], any container for a
    [Delete]. *)
Definition admits (parent : option MetaObject) (a : BackendAction) : bool :=
  match a, parent with
  | Assign _, Some (MMap _) => true
  | ListAssign _, Some (MList _) => true
  | Insert _, Some (MList _) => true
  | Delete _, Some _ => true
  | _, _ => false
  end.

(** What a path resolves to when it ends at the entry of [item]. *)
Definition identityOf (item : BackendPrimitive) : Value :=
  entryIdentity (Some (entryOf item)).

(** The four operations of the two sites, one call each, in an order that
    keeps every call on the path the log needs. *)
Definition replicaZ : State := submitAll [[a1]; [b1]; [b2]; [a2]] initial.

(** The assignment [k1] carries. *)
Definition k1Assignment : BackendAssignment :=
  mkAssignment (mkPrimitive "a@2" (VNumber 1) OTHER) (IKey "k") "r@1".

(** * Properties *)

(** ** Running the monad *)

Ltac run :=
  unfold bind, get, modify, ret, throw, returning, fields in *; simpl in *.

(** Closed statements about concrete logs are settled by evaluation. *)
Ltac evaluate := compute_done.
Ltac conjuncts := repeat match goal with |- _ /\ _ => split end.
Ltac evaluate_all := conjuncts; evaluate.

Lemma bind_returned {A B} (m : M A) (k : A -> M B) st a st' :
  m st = (Returned a, st') -> (x <- m ;; k x) st = k a st'.
Proof. intros E. unfold bind. by rewrite E. Qed.

Lemma bind_threw {A B} (m : M A) (k : A -> M B) st e st' :
  m st = (Threw e, st') -> (x <- m ;; k x) st = (Threw e, st').
Proof. intros E. unfold bind. by rewrite E. Qed.

Lemma forEach_app {A} (f : A -> M unit) (l1 l2 : list A) st :
  forEach f (l1 ++ l2) st = (forEach f l1 ;; forEach f l2) st.
Proof.
  revert st. induction l1 as [|x l1 IH]; intros st; simpl.
  - done.
  - unfold bind in *. destruct (f x st) as [[[]|e] st1]; [|done].
    by rewrite IH.
Qed.

(** ** The sort *)

Section Sorting.
Context {A : Type}.
Implicit Types (a b x : Change_ A) (l : list (Change_ A)).

Lemma compare_not_greater a b : changeSortCompare a b <= 0 -> changeLe a b.
Proof.
  unfold changeSortCompare, changeLe.
  destruct (Z.ltb_spec (clock a) (clock b)); [auto|].
  destruct (Z.ltb_spec (clock b) (clock a)); [lia|].
  unfold String.ltb, String.leb.
  destruct (String.compare (pid a) (pid b)) eqn:E; intros;
    first [lia | right; split; [lia|done]].
Qed.

Lemma compare_greater a b : 0 < changeSortCompare a b -> changeLe b a.
Proof.
  unfold changeSortCompare, changeLe.
  destruct (Z.ltb_spec (clock a) (clock b)); [lia|].
  destruct (Z.ltb_spec (clock b) (clock a)); [auto|].
  unfold String.ltb, String.leb. rewrite (String.compare_antisym (pid b) (pid a)).
  destruct (String.compare (pid a) (pid b)) eqn:E; simpl; intros;
    first [lia | right; split; [lia|done]].
Qed.

Lemma compare_not_less a b : 0 <= changeSortCompare a b -> changeLe b a.
Proof.
  unfold changeSortCompare, changeLe.
  destruct (Z.ltb_spec (clock a) (clock b)); [lia|].
  destruct (Z.ltb_spec (clock b) (clock a)); [auto|].
  unfold String.ltb, String.leb. rewrite (String.compare_antisym (pid b) (pid a)).
  destruct (String.compare (pid a) (pid b)) eqn:E; simpl; intros;
    first [lia | right; split; [lia|done]].
Qed.

Lemma compare_less_greater a b : changeSortCompare a b < 0 -> 0 < changeSortCompare b a.
Proof.
  unfold changeSortCompare.
  destruct (Z.ltb_spec (clock a) (clock b)), (Z.ltb_spec (clock b) (clock a)); try lia.
  unfold String.ltb. rewrite (String.compare_antisym (pid a) (pid b)).
  destruct (String.compare (pid b) (pid a)); simpl; lia.
Qed.

Lemma sort_insert_perm (cmp : Change_ A -> Change_ A -> Z) x l :
  sort_insert cmp x l ≡ₚ x :: l.
Proof.
  induction l as [|y l IH]; simpl; [done|].
  destruct (cmp y x <? 0); [|done].
  rewrite IH. apply Permutation_swap.
Qed.

Lemma sort_perm (cmp : Change_ A -> Change_ A -> Z) l : sort cmp l ≡ₚ l.
Proof.
  induction l as [|x l IH]; simpl; [done|].
  by rewrite sort_insert_perm, IH.
Qed.

Lemma sort_insert_sorted x l :
  Sorted changeLe l -> Sorted changeLe (sort_insert changeSortCompare x l).
Proof.
  induction 1 as [|y l Hs IH Hd]; simpl.
  - repeat constructor.
  - destruct (Z.ltb_spec (changeSortCompare y x) 0) as [Hlt|Hge].
    + constructor; [done|].
      assert (Hyx : changeLe y x) by (apply compare_not_greater; lia).
      destruct l as [|z l]; simpl.
      * by constructor.
      * destruct (Z.ltb_spec (changeSortCompare z x) 0).
        -- constructor. by inversion Hd.
        -- by constructor.
    + constructor; [by constructor|]. constructor. by apply compare_not_less.
Qed.

Lemma sort_sorted l : Sorted changeLe (sort changeSortCompare l).
Proof.
  induction l as [|x l IH]; simpl; [constructor|]. by apply sort_insert_sorted.
Qed.

Lemma changeLe_clock a b : changeLe a b -> clock a <= clock b.
Proof. unfold changeLe. lia. Qed.

Lemma sorted_clocks l :
  Sorted changeLe l -> StronglySorted (fun a b => clock a <= clock b) l.
Proof.
  intros Hs. apply Sorted.Sorted_StronglySorted.
  - intros a b c ? ?. lia.
  - induction Hs as [|y l Hs IH Hd]; constructor; [done|].
    destruct Hd; constructor. by apply changeLe_clock.
Qed.

Lemma sorted_head_least first l :
  Sorted changeLe (first :: l) -> Forall (fun c => clock first <= clock c) (first :: l).
Proof.
  intros Hs. apply sorted_clocks in Hs. apply StronglySorted_inv in Hs as [_ Hall].
  constructor; [lia|done].
Qed.

Lemma sorted_last_greatest l :
  Sorted changeLe l ->
  Forall (fun c => clock c <= default 0 (clock <$> last l)) l.
Proof.
  intros Hs. apply sorted_clocks in Hs.
  induction Hs as [|x l Hs IH Hall]; [constructor|].
  destruct l as [|y l]; simpl in *.
  - repeat constructor. lia.
  - constructor; [|done].
    rewrite Forall_forall in Hall, IH.
    assert (Hy : y ∈ y :: l) by left.
    specialize (Hall y Hy). specialize (IH y Hy). simpl in *. lia.
Qed.

End Sorting.

(** ** The operation interpreter *)

Lemma set_objects_same st : set_objects (objects st) st = st.
Proof. by destruct st. Qed.

Lemma getMetaObject_found n o st :
  objects st !! n = Some o -> getMetaObject n st = (Returned o, st).
Proof. intros E. unfold getMetaObject. run. by rewrite E. Qed.

Lemma getMetaObject_missing n st :
  objects st !! n = None ->
  getMetaObject n st =
    (Threw (RangeError "Indexable element does not exist at this index"), st).
Proof. intros E. unfold getMetaObject. run. by rewrite E. Qed.

Lemma slot_tombstone at_ o i :
  slot (match o with
        | MList l => MList (tombstone at_ <$> l)
        | MMap m => MMap (tombstone at_ <$> m)
        end) i = tombstone at_ <$> slot o i.
Proof.
  destruct o as [m|l]; simpl.
  - by rewrite lookup_fmap.
  - destruct i as [k|n]; [done|]. destruct (n <? 0); [done|].
    by rewrite list_lookup_fmap.
Qed.

Lemma tombstone_settled at_ o :
  settled at_ o ->
  match o with
  | MList l => MList (tombstone at_ <$> l)
  | MMap m => MMap (tombstone at_ <$> m)
  end = o.
Proof.
  intros Hs.
  assert (Hid : forall i e, slot o i = Some e -> tombstone at_ e = e).
  { intros i e Hi. unfold tombstone. case_decide as Hn; [|done].
    specialize (Hs i e Hi Hn). destruct e; simpl in *. by subst. }
  destruct o as [m|l]; f_equal.
  - apply map_eq. intros k. rewrite lookup_fmap.
    destruct (m !! k) as [e|] eqn:E; [|done]. simpl. f_equal. by apply (Hid k).
  - apply list_eq. intros j. rewrite list_lookup_fmap.
    destruct (l !! j) as [e|] eqn:E; [|done]. simpl. f_equal.
    apply (Hid (IPos (Z.of_nat j))). simpl.
    destruct (Z.ltb_spec (Z.of_nat j) 0); [lia|]. by rewrite Nat2Z.id.
Qed.

Section Interpreter.
Context `{Imports}.

(** C5. An operation addressed to a container of the wrong shape throws,
    and the store is as it was: an [Assign] into a list and a [ListAssign]
    into a map raise [EvalError], an [Insert] into a map raises
    [RangeError]. *)
Theorem structural_conflict_is_fatal (st : State) (change : BackendChange) :
  (forall a l, action change = Assign a -> objects st !! a_in a = Some (MList l) ->
     applyChange change st =
       (Threw (EvalError "Key assignment into a list should never happen"), st)) /\
  (forall a m, action change = ListAssign a -> objects st !! la_in a = Some (MMap m) ->
     applyChange change st =
       (Threw (EvalError "Index assignment into an object should never happen"), st)) /\
  (forall a m, action change = Insert a -> objects st !! i_in a = Some (MMap m) ->
     applyChange change st =
       (Threw (RangeError "Cannot insert into a non-list"), st)).
Proof.
  unfold applyChange. repeat split; intros a o -> Hin.
  - unfold applyAssignment. by rewrite (bind_returned _ _ _ _ _ (getMetaObject_found _ _ _ Hin)).
  - unfold applyListAssignment.
    by rewrite (bind_returned _ _ _ _ _ (getMetaObject_found _ _ _ Hin)).
  - unfold applyInsertion. by rewrite (bind_returned _ _ _ _ _ (getMetaObject_found _ _ _ Hin)).
Qed.

(** C6, as amended. A [Delete] whose parent container exists never throws:
    it flags every entry of the parent that carries the target identity,
    leaves the other entries and the slots as they are, and changes nothing
    when no live entry carries the target. A [Delete] whose parent
    container does not exist raises [RangeError]. *)
Theorem deletion_flags_target (st : State) (d : Deletion) :
  match objects st !! d_in d with
  | None =>
      applyDeletion d st =
        (Threw (RangeError "Indexable element does not exist at this index"), st)
  | Some parent =>
      exists parent',
        applyDeletion d st =
          (Returned tt, set_objects (<[d_in d := parent']> (objects st)) st) /\
        sameShape parent parent' /\
        (forall i e, slot parent i = Some e -> name e = Some (d_at d) ->
           slot parent' i = Some (mkEntry (name e) (value e) (kind e) true)) /\
        (forall i e, slot parent i = Some e -> name e <> Some (d_at d) ->
           slot parent' i = Some e) /\
        (forall i, slot parent i = None -> slot parent' i = None) /\
        (settled (d_at d) parent -> applyDeletion d st = (Returned tt, st))
  end.
Proof.
  destruct (objects st !! d_in d) as [parent|] eqn:Hin.
  - exists (match parent with
            | MList l => MList (tombstone (d_at d) <$> l)
            | MMap m => MMap (tombstone (d_at d) <$> m)
            end).
    assert (Hrun : applyDeletion d st =
      (Returned tt, set_objects (<[d_in d := match parent with
            | MList l => MList (tombstone (d_at d) <$> l)
            | MMap m => MMap (tombstone (d_at d) <$> m)
            end]> (objects st)) st)).
    { unfold applyDeletion.
      rewrite (bind_returned _ _ _ _ _ (getMetaObject_found _ _ _ Hin)).
      by destruct parent. }
    split; [done|]. split.
    { destruct parent; simpl; [done|]. by rewrite length_fmap. }
    repeat split.
    + intros i e Hi Hn. rewrite slot_tombstone, Hi. simpl.
      unfold tombstone. by rewrite decide_True.
    + intros i e Hi Hn. rewrite slot_tombstone, Hi. simpl.
      unfold tombstone. by rewrite decide_False.
    + intros i Hi. by rewrite slot_tombstone, Hi.
    + intros Hs. rewrite Hrun, (tombstone_settled _ _ Hs).
      by rewrite (insert_id _ _ _ Hin), set_objects_same.
  - unfold applyDeletion.
    by rewrite (bind_threw _ _ _ _ _ (getMetaObject_missing _ _ Hin)).
Qed.

End Interpreter.

(** ** The replay engine *)

Section Replay.
Context `{Imports}.

Lemma createMetaObject_frame item st :
  exists o, createMetaObject item st = (Returned tt, set_objects o st).
Proof.
  unfold createMetaObject, setMetaObject. destruct (item_kind item); run.
  - exists (objects st). by rewrite set_objects_same.
  - by eexists.
  - by eexists.
Qed.

(** Applying an operation touches the container store only. *)
Lemma applyChange_frame change st :
  exists o, snd (applyChange change st) = set_objects o st.
Proof.
  assert (Hsame : exists o, st = set_objects o st).
  { exists (objects st). by rewrite set_objects_same. }
  unfold applyChange.
  destruct (action change) as [a|a|a|a];
    unfold applyAssignment, applyListAssignment, applyInsertion, applyDeletion,
      getMetaObject, setMetaObject; run;
    destruct (objects st !! _) as [[m|l]|]; simpl; try done;
    try (destruct (createMetaObject_frame (a_item a) (set_objects
           (<[a_in a:=MMap (<[a_at a:=entryOf (a_item a)]> m)]> (objects st)) st)) as [o ->]);
    try (destruct (createMetaObject_frame (la_item a) (set_objects
           (<[la_in a:=MList (assignToList l (la_at a) (la_item a))]> (objects st)) st))
           as [o ->]);
    try (destruct (createMetaObject_frame (i_item a) (set_objects
           (<[i_in a:=MList (insertInList l (findInsertionIndex l a) (i_item a))]>
              (objects st)) st)) as [o ->]);
    simpl; by eexists.
Qed.

Lemma forEach_applyChange_frame cs st :
  exists o, snd (forEach applyChange cs st) = set_objects o st.
Proof.
  revert st. induction cs as [|c cs IH]; intros st; simpl.
  - exists (objects st). by rewrite set_objects_same.
  - unfold bind. destruct (applyChange_frame c st) as [o Ho].
    destruct (applyChange c st) as [[[]|e] st1]; simpl in *; subst st1.
    + destruct (IH (set_objects o st)) as [o' ->]. by exists o'.
    + by exists o.
Qed.

Lemma applyChanges_unfold cs st :
  applyChanges cs st = forEach applyChange (filter (fun c => ready st c) cs) st.
Proof. done. Qed.

(** C2. An accepted batch whose least clock lies above the high-water
    clock is appended to the log, the high-water clock moves up to the
    batch's greatest clock, and the batch alone is applied to the store as
    it stands; any other accepted batch is sorted into the log, and the
    store is rebuilt from the empty root by applying the whole sorted
    log. *)
Theorem addChange_fast_or_rebuild (st : State) (cs : list Change)
    (first : BackendChange) (rest : list BackendChange) :
  accepted st cs = first :: rest ->
  let batch := first :: rest in
  let seen' := list_to_set (toID <$> batch) ∪ _seen st in
  Forall (fun c => clock first <= clock c) batch /\
  if this_clock st <? clock first then
    let st1 := mkState (objects st) seen' (default 0 (clock <$> last batch))
                       (changes st ++ batch) in
    this_clock st < this_clock st1 /\
    Forall (fun c => clock c <= this_clock st1) batch /\
    addChange cs st = returning batch (applyChanges batch st1)
  else
    let log := sort changeSortCompare (changes st ++ batch) in
    let st1 := mkState emptyObjects seen' (this_clock st) log in
    log ≡ₚ changes st ++ batch /\
    Sorted changeLe log /\
    addChange cs st = returning batch (applyChanges log st1).
Proof.
  intros Hacc batch seen'.
  assert (Hsorted : Sorted changeLe batch).
  { unfold batch. rewrite <- Hacc. apply sort_sorted. }
  split; [by apply sorted_head_least|].
  destruct (Z.ltb_spec (this_clock st) (clock first)) as [Hlt|Hge].
  - pose proof (sorted_last_greatest _ Hsorted) as Hlast.
    split; [|split; [done|]].
    + apply Forall_cons_1 in Hlast as [Hfirst _].
      change (this_clock st < default 0 (clock <$> last batch)).
      unfold batch in *. eapply Z.lt_le_trans; [exact Hlt|exact Hfirst].
    + unfold addChange, witness, appendChanges. run. rewrite Hacc. simpl.
      destruct (Z.ltb_spec (this_clock st) (clock first)); [|lia]. done.
  - split; [apply sort_perm|]. split; [apply sort_sorted|].
    unfold addChange, witness, insertChanges, reapplyAllChanges. run. rewrite Hacc. simpl.
    destruct (Z.ltb_spec (this_clock st) (clock first)); [lia|]. done.
Qed.

End Replay.

Section Gating.
Context `{Imports}.

Lemma addChange_staged st cs :
  addChange cs st =
    returning (accepted st cs) (applyChanges (pass st cs) (staged st cs)).
Proof.
  unfold addChange, pass, staged, witness, appendChanges, insertChanges,
    reapplyAllChanges. run.
  destruct (accepted st cs) as [|first rest] eqn:Hacc; simpl; [done|].
  by destruct (this_clock st <? clock first).
Qed.

Lemma staged_seen st cs :
  _seen (staged st cs) = list_to_set (toID <$> accepted st cs) ∪ _seen st.
Proof.
  unfold staged. destruct (accepted st cs) as [|first rest]; [done|].
  by destruct (this_clock st <? clock first).
Qed.

Lemma accepted_in_pass st cs change :
  change ∈ accepted st cs -> change ∈ pass st cs.
Proof.
  unfold pass. destruct (accepted st cs) as [|first rest] eqn:Hacc; [done|].
  destruct (this_clock st <? clock first); [done|].
  intros Hin. rewrite sort_perm. apply elem_of_app. by right.
Qed.

Lemma addChange_fields st cs :
  exists o, fields (addChange cs st) = set_objects o (staged st cs).
Proof.
  rewrite addChange_staged, applyChanges_unfold.
  destruct (forEach_applyChange_frame
              (filter (fun c => ready (staged st cs) c) (pass st cs)) (staged st cs))
    as [o Ho].
  exists o. unfold fields, returning.
  by destruct (forEach applyChange _ _) as [[[]|e] st1].
Qed.

(** C10. The identities of a call's accepted operations are all in the
    seen-set when its apply pass starts, so an accepted operation that
    depends on another operation accepted in the same call is applied in
    that call, whether or not that other operation is itself held back. *)
Theorem same_batch_dependency_is_ready (st : State) (cs : list Change)
    (d x : BackendChange) :
  d ∈ accepted st cs -> x ∈ accepted st cs -> dep d = Some (toID x) ->
  let st1 := staged st cs in
  let applied := filter (fun c => ready st1 c) (pass st cs) in
  addChange cs st = returning (accepted st cs) (forEach applyChange applied st1) /\
  (forall c, c ∈ accepted st cs -> toID c ∈ _seen st1) /\
  d ∈ applied /\
  (ready st1 x = false -> x ∉ applied).
Proof.
  intros Hd Hx Hdep st1 applied.
  assert (Hseen : forall c, c ∈ accepted st cs -> toID c ∈ _seen st1).
  { intros c Hc. unfold st1. rewrite staged_seen. apply elem_of_union_l.
    apply elem_of_list_to_set, list_elem_of_fmap. by exists c. }
  split; [by rewrite addChange_staged|]. split; [done|]. split.
  - apply list_elem_of_filter. split; [|by apply accepted_in_pass].
    unfold ready. rewrite Hdep. case_decide; [done|].
    unfold seen. apply Is_true_true, bool_decide_eq_true. by apply Hseen.
  - intros Hx' Hin. apply list_elem_of_filter in Hin as [Hr _].
    rewrite Hx' in Hr. done.
Qed.

End Gating.

Section Deferral.
Context `{Imports}.






Lemma newState_fields cs :
  exists o, fields (newState cs) =
              mkState o (list_to_set (toID <$> cs) ∪ ∅) (default 0 (clock <$> last cs)) cs.
Proof.
  unfold newState, witness, reapplyAllChanges. run.
  rewrite applyChanges_unfold.
  match goal with
  | |- context [forEach applyChange ?l ?s] =>
      destruct (forEach_applyChange_frame l s) as [o Ho];
      destruct (forEach applyChange l s) as [[[]|e] st1]; simpl in *; subst st1;
      by exists o
  end.
Qed.

(** On every instance the seen-set holds the identities of the log. *)
Lemma reachable_seen st :
  reachable st -> _seen st = list_to_set (toID <$> changes st).
Proof.
  induction 1 as [cs r st Hnew|cs st r st' Hreach IH Hadd].
  - destruct (newState_fields cs) as [o Ho]. unfold fields in Ho.
    rewrite Hnew in Ho. simpl in Ho. subst st. simpl. by rewrite (right_id_L ∅ (∪)).
  - destruct (addChange_fields st cs) as [o Ho]. unfold fields in Ho.
    rewrite Hadd in Ho. simpl in Ho. subst st'. simpl.
    rewrite staged_seen, IH. unfold staged.
    destruct (accepted st cs) as [|first rest]; simpl.
    + by rewrite (left_id_L ∅ (∪)).
    + destruct (this_clock st <? clock first); simpl.
      * rewrite fmap_app, list_to_set_app_L. apply (comm_L (∪)).
      * rewrite (list_to_set_perm_L (toID <$> sort changeSortCompare _)
                   (toID <$> (changes st ++ first :: rest)%list))
          by (by rewrite sort_perm).
        rewrite fmap_app, list_to_set_app_L. apply (comm_L (∪)).
Qed.

End Deferral.

Section Idempotence.
Context `{Imports}.

Lemma addChange_accepted st cs cs' :
  accepted st cs = accepted st cs' -> addChange cs st = addChange cs' st.
Proof.
  intros E. rewrite !addChange_staged. unfold pass, staged. by rewrite E.
Qed.

Lemma seen_logged st (c : Change) :
  reachable st -> seen st (inl c) = true <-> toID c ∈ toID <$> changes st.
Proof.
  intros Hr. unfold seen. rewrite bool_decide_eq_true, (reachable_seen _ Hr).
  apply elem_of_list_to_set.
Qed.

Lemma toID_ensureBackendChange (c : Change) : toID (ensureBackendChange c) = toID c.
Proof. done. Qed.

Lemma accepted_origin st cs b :
  b ∈ accepted st cs ->
  exists c, c ∈ cs /\ b = ensureBackendChange c /\ seen st (inl c) = false.
Proof.
  unfold accepted. rewrite sort_perm. intros Hb.
  apply list_elem_of_fmap in Hb as (c & -> & Hc).
  apply list_elem_of_filter in Hc as [Hs Hc].
  exists c. split; [done|]. split; [done|].
  apply negb_true_iff, Is_true_true. exact Hs.
Qed.

(** C4, as amended. On an instance, an operation submitted in a later call
    under the identity of an operation of the log is filtered out: the
    call does what it would do without it; a batch of such operations
    alone returns the empty list and changes no field, so neither the log
    nor the store; and no operation a call returns carries the identity of
    an operation that was in the log. *)
Theorem resubmission_is_filtered (st : State) (cs : list Change) :
  reachable st ->
  let logged (c : Change) := toID c ∈ toID <$> changes st in
  addChange cs st = addChange (filter (fun c => ~ logged c) cs) st /\
  ((forall c, c ∈ cs -> logged c) -> addChange cs st = (Returned [], st)) /\
  (forall b, b ∈ accepted st cs -> toID b ∉ toID <$> changes st).
Proof.
  intros Hr logged.
  assert (Hfilter : forall l : list Change,
            filter (fun c => negb (seen st (inl c))) (filter (fun c => ~ logged c) l)
            = filter (fun c => negb (seen st (inl c))) l).
  { induction l as [|c l IH]; [done|].
    destruct (decide (logged c)) as [Hy|Hn].
    - assert (Hs : seen st (inl c) = true) by (by apply (seen_logged st c Hr)).
      rewrite (filter_cons_False (fun c => ~ logged c)) by tauto.
      rewrite (filter_cons_False (fun c : Change => Is_true (negb (seen st (inl c)))))
        by (rewrite Hs; by intros []).
      exact IH.
    - assert (Hs : seen st (inl c) = false).
      { destruct (seen st (inl c)) eqn:E; [|done].
        apply (seen_logged st c Hr) in E. done. }
      rewrite (filter_cons_True (fun c => ~ logged c)) by done.
      rewrite !(filter_cons_True (fun c : Change => Is_true (negb (seen st (inl c)))))
        by (by rewrite Hs).
      f_equal. exact IH. }
  split; [|split].
  - apply addChange_accepted. unfold accepted. by rewrite Hfilter.
  - intros Hall.
    assert (Hnone : accepted st cs = []).
    { unfold accepted.
      replace (filter (fun c => negb (seen st (inl c))) cs) with (@nil Change); [done|].
      symmetry. induction cs as [|c cs IH]; [done|].
      rewrite filter_cons, decide_False.
      - apply IH. intros c' Hc'. apply Hall. by right.
      - rewrite (proj2 (seen_logged st c Hr) (Hall c ltac:(left))). by intros []. }
    rewrite addChange_staged. unfold pass, staged. rewrite Hnone. simpl.
    rewrite (left_id_L ∅ (∪)). by destruct st.
  - intros b Hb Hin. apply accepted_origin in Hb as (c & _ & -> & Hs).
    rewrite toID_ensureBackendChange in Hin.
    apply (seen_logged st c Hr) in Hin. congruence.
Qed.

End Idempotence.

(** ** Tombstones *)

Section Tombstones.
Context `{Imports}.

Lemma keeps_same exempt o : keeps exempt o o.
Proof.
  destruct o as [m|l]; simpl.
  - split; [done|]. by intros.
  - split; [apply sublist_filter|done].
Qed.

Lemma findLiveIndex_live l n i :
  findLiveIndex l n = Some i -> exists e, l !! i = Some e /\ deleted e = false.
Proof.
  revert n i. induction l as [|x l IH]; intros n i; simpl; [done|].
  destruct (deleted x) eqn:Hx.
  - destruct (findLiveIndex l n) as [j|] eqn:E; [|done].
    intros [= <-]. simpl. by eapply IH.
  - destruct n as [|n].
    + intros [= <-]. by exists x.
    + destruct (findLiveIndex l n) as [j|] eqn:E; [|done].
      intros [= <-]. simpl. by eapply IH.
Qed.

Lemma keeps_overwrite_live exempt l i x y :
  l !! i = Some x -> deleted x = false ->
  keeps exempt (MList l) (MList (<[i := y]> l)).
Proof.
  intros Hi Hx. simpl. split; [|by rewrite length_insert].
  rewrite insert_take_drop by (by eapply lookup_lt_Some).
  rewrite <- (take_drop_middle l i x Hi) at 1.
  rewrite filter_app, filter_cons_False by (by rewrite Hx).
  apply sublist_app; [apply sublist_filter|].
  apply sublist_cons, sublist_filter.
Qed.

Lemma keeps_assignToList exempt l at_ item :
  keeps exempt (MList l) (MList (assignToList l at_ item)).
Proof.
  unfold assignToList, findIndexInTombstoneArray.
  destruct (at_ <? 0); [apply keeps_same|].
  destruct (findLiveIndex l (Z.to_nat at_)) as [i|] eqn:E; [|apply keeps_same].
  apply findLiveIndex_live in E as (x & Hi & Hx).
  by eapply keeps_overwrite_live.
Qed.

Lemma keeps_insertInList exempt l index item :
  keeps exempt (MList l) (MList (insertInList l index item)).
Proof.
  unfold insertInList. simpl. split.
  - etransitivity; [apply sublist_filter|].
    rewrite <- (take_drop (Z.to_nat index) l) at 1.
    apply sublist_app; [done|]. by apply sublist_cons.
  - rewrite length_app. simpl. rewrite length_take, length_drop. lia.
Qed.

Lemma tombstone_deleted at_ e : deleted e = true -> tombstone at_ e = e.
Proof.
  intros He. unfold tombstone. case_decide; [|done]. destruct e; simpl in *. by subst.
Qed.

Lemma keeps_tombstone exempt at_ o :
  keeps exempt o
        (match o with
         | MList l => MList (tombstone at_ <$> l)
         | MMap m => MMap (tombstone at_ <$> m)
         end).
Proof.
  destruct o as [m|l]; simpl.
  - split.
    + intros k [e He]. rewrite lookup_fmap, He. by eexists.
    + intros k e He Hd _. rewrite lookup_fmap, He. simpl. by rewrite tombstone_deleted.
  - split; [|by rewrite length_fmap].
    induction l as [|e l IH]; simpl; [constructor|].
    destruct (deleted e) eqn:He.
    + rewrite filter_cons_True by done. rewrite tombstone_deleted by done.
      by apply sublist_skip.
    + rewrite filter_cons_False by (by rewrite He).
      by apply sublist_cons.
Qed.

Lemma keeps_assign c a m :
  a_in a = c ->
  keeps (assigns (Assign a) c) (MMap m) (MMap (<[a_at a := entryOf (a_item a)]> m)).
Proof.
  intros Hin. simpl. split.
  - intros k Hk. destruct (decide (a_at a = k)) as [->|Hne].
    + rewrite lookup_insert_eq. by eexists.
    + by rewrite lookup_insert_ne.
  - intros k e He _ Hex. rewrite lookup_insert_ne; [done|].
    intros Heq. simpl in Hex. rewrite !bool_decide_eq_true_2 in Hex by done. done.
Qed.

Lemma not_creating item c :
  bool_decide (item_name item = c) && negb (bool_decide (item_kind item = OTHER)) = false ->
  item_name item = c -> item_kind item = OTHER.
Proof.
  intros Hc Hn. rewrite (bool_decide_eq_true_2 _ Hn) in Hc. simpl in Hc.
  by apply negb_false_iff, bool_decide_eq_true in Hc.
Qed.

Lemma createMetaObject_elsewhere item st c :
  bool_decide (item_name item = c) && negb (bool_decide (item_kind item = OTHER)) = false ->
  objects (fields (createMetaObject item st)) !! c = objects st !! c.
Proof.
  intros Hc. pose proof (not_creating item c Hc) as Hk.
  unfold createMetaObject, setMetaObject.
  destruct (item_kind item); run; [done| |];
    (rewrite lookup_insert_ne; [done|]); intros Hn; by specialize (Hk Hn).
Qed.

(** After the parent is written back and the item's container created,
    container [c] is the new parent if it was the parent, and is as it was
    otherwise. *)
Lemma written_back item st c _in o' :
  bool_decide (item_name item = c) && negb (bool_decide (item_kind item = OTHER)) = false ->
  objects (fields ((setMetaObject _in o' ;; createMetaObject item) st)) !! c =
    if decide (_in = c) then Some o' else objects st !! c.
Proof.
  intros Hc. unfold bind, setMetaObject at 1, modify.
  rewrite createMetaObject_elsewhere by done. simpl.
  apply lookup_insert.
Qed.

(** C8, as amended. Applying an operation that does not itself introduce
    container [c] leaves in [c] every tombstoned entry of a list, flagged
    and in order, and every tombstoned entry of a map except the one under
    the key an [Assign] writes; no slot or key goes. *)
Theorem tombstones_persist (st : State) (change : BackendChange) (c : ID) (o : MetaObject) :
  objects st !! c = Some o ->
  creates (action change) c = false ->
  exists o',
    objects (fields (applyChange change st)) !! c = Some o' /\
    keeps (assigns (action change) c) o o'.
Proof.
  intros Hc Hcreate.
  assert (Hsame : forall exempt, exists o', objects st !! c = Some o' /\ keeps exempt o o').
  { intros exempt. exists o. split; [done|apply keeps_same]. }
  unfold applyChange. destruct (action change) as [a|a|a|a]; simpl in Hcreate.
  - unfold applyAssignment.
    destruct (objects st !! a_in a) as [[m|l]|] eqn:Hin.
    + rewrite (bind_returned _ _ _ _ _ (getMetaObject_found _ _ _ Hin)).
      rewrite written_back by done.
      destruct (decide (a_in a = c)) as [Hp|Hp]; [|apply Hsame].
      eexists. split; [done|]. rewrite Hp, Hc in Hin. injection Hin as ->.
      by apply keeps_assign.
    + rewrite (bind_returned _ _ _ _ _ (getMetaObject_found _ _ _ Hin)). apply Hsame.
    + rewrite (bind_threw _ _ _ _ _ (getMetaObject_missing _ _ Hin)). apply Hsame.
  - unfold applyListAssignment.
    destruct (objects st !! la_in a) as [[m|l]|] eqn:Hin.
    + rewrite (bind_returned _ _ _ _ _ (getMetaObject_found _ _ _ Hin)). apply Hsame.
    + rewrite (bind_returned _ _ _ _ _ (getMetaObject_found _ _ _ Hin)).
      rewrite written_back by done.
      destruct (decide (la_in a = c)) as [Hp|Hp]; [|apply Hsame].
      eexists. split; [done|]. rewrite Hp, Hc in Hin. injection Hin as ->.
      apply keeps_assignToList.
    + rewrite (bind_threw _ _ _ _ _ (getMetaObject_missing _ _ Hin)). apply Hsame.
  - unfold applyInsertion.
    destruct (objects st !! i_in a) as [[m|l]|] eqn:Hin.
    + rewrite (bind_returned _ _ _ _ _ (getMetaObject_found _ _ _ Hin)). apply Hsame.
    + rewrite (bind_returned _ _ _ _ _ (getMetaObject_found _ _ _ Hin)).
      rewrite written_back by done.
      destruct (decide (i_in a = c)) as [Hp|Hp]; [|apply Hsame].
      eexists. split; [done|]. rewrite Hp, Hc in Hin. injection Hin as ->.
      apply keeps_insertInList.
    + rewrite (bind_threw _ _ _ _ _ (getMetaObject_missing _ _ Hin)). apply Hsame.
  - unfold applyDeletion.
    destruct (objects st !! d_in a) as [parent|] eqn:Hin.
    + rewrite (bind_returned _ _ _ _ _ (getMetaObject_found _ _ _ Hin)).
      destruct (decide (d_in a = c)) as [Hp|Hp].
      * rewrite Hp, Hc in Hin. injection Hin as <-.
        exists (match o with
                | MList l => MList (tombstone (d_at a) <$> l)
                | MMap m => MMap (tombstone (d_at a) <$> m)
                end).
        split; [|apply keeps_tombstone].
        destruct o; unfold setMetaObject; run; by rewrite Hp, lookup_insert_eq.
      * destruct (Hsame (assigns (Delete a) c)) as (o' & Ho' & Hk). exists o'.
        split; [|done].
        destruct parent; unfold setMetaObject; run; by rewrite lookup_insert_ne.
    + rewrite (bind_threw _ _ _ _ _ (getMetaObject_missing _ _ Hin)). apply Hsame.
Qed.

End Tombstones.

(** ** The tree navigator *)

Section Navigation.
Context `{Imports}.

Lemma reduce_app p q n st :
  reduce (p ++ q) n st = (n' <- reduce p n ;; reduce q n') st.
Proof.
  revert n st. induction p as [|i p IH]; intros n st; simpl; [done|].
  unfold bind in *. destruct (resolveStep n i st) as [[n'|e] st1]; [|done].
  by rewrite IH.
Qed.

Lemma getElement_snoc path index st :
  getElement (path ++ [index]) st =
    (name <- getElement path ;; resolveStep name index) st.
Proof.
  unfold getElement, getElementImpl.
  rewrite (app_comm_cons path [index] (IKey ROOT)), reduce_app.
  unfold bind. destruct (reduce (IKey ROOT :: path) _ st) as [[n|e] st1]; [|done].
  simpl. unfold bind. by destruct (resolveStep n index st1) as [[n'|e] st2].
Qed.

(** C9, as amended. Resolution folds over the path from [ROOT_PARENT]:
    resolving one more index looks up the container of the identity
    resolved so far and fetches the entry at that index, by key in a map
    and by live position in a list; the result is absent when there is no
    entry or the entry is tombstoned, the entry's own identity when it is a
    primitive, and its stored value otherwise. When what is resolved so
    far names no container (it is absent, is no string, or is the identity
    of a primitive), resolving one more index raises [RangeError]; an
    error raised on the way, or by the conversion of a list index, is the
    outcome of the resolution. *)
Theorem path_resolution (st : State) (path : list Index) (index : Index) :
  getElement [] st = resolveStep (VString ROOT_PARENT) (IKey ROOT) st /\
  getElement (path ++ [index]) st =
    (name <- getElement path ;; resolveStep name index) st /\
  (forall m, fetchEntry (MMap m) index st = (Returned (m !! index), st)) /\
  (forall l n, ensureNumber index = Returned n ->
     fetchEntry (MList l) index st =
       (Returned (i ← findIndexInTombstoneArray l n; l !! i), st)) /\
  (forall id container entry,
     getElement path st = (Returned (VString id), st) ->
     objects st !! id = Some container ->
     fetchEntry container index st = (Returned entry, st) ->
     getElement (path ++ [index]) st =
       (Returned
          match entry with
          | None => VUndefined
          | Some e =>
              if deleted e then VUndefined
              else if decide (kind e = OTHER) then nameValue (name e)
              else value e
          end, st)) /\
  (forall v,
     getElement path st = (Returned v, st) ->
     (forall id, v = VString id -> objects st !! id = None) ->
     getElement (path ++ [index]) st =
       (Threw (RangeError "Indexable element does not exist at this index"), st)) /\
  (forall id l e,
     getElement path st = (Returned (VString id), st) ->
     objects st !! id = Some (MList l) ->
     ensureNumber index = Threw e ->
     getElement (path ++ [index]) st = (Threw e, st)) /\
  (forall e,
     getElement path st = (Threw e, st) ->
     getElement (path ++ [index]) st = (Threw e, st)).
Proof.
  split.
  { unfold getElement, getElementImpl. simpl. unfold bind.
    by destruct (resolveStep _ _ st) as [[n|e] st1]. }
  split; [apply getElement_snoc|].
  split; [done|].
  split.
  { intros l n Hn. unfold fetchEntry. by rewrite Hn. }
  split.
  - intros id container entry Hpath Hid Hfetch.
    rewrite getElement_snoc, (bind_returned _ _ _ _ _ Hpath).
    unfold resolveStep, getMetaObjectOf.
    rewrite (bind_returned _ _ _ _ _ (getMetaObject_found _ _ _ Hid)).
    rewrite (bind_returned _ _ _ _ _ Hfetch). done.
  - split; [|split].
    + intros v Hpath Hnone.
      rewrite getElement_snoc, (bind_returned _ _ _ _ _ Hpath).
      unfold resolveStep, getMetaObjectOf.
      destruct v as [| | | |id]; try done.
      by rewrite (bind_threw _ _ _ _ _ (getMetaObject_missing _ _ (Hnone id eq_refl))).
    + intros id l e Hpath Hid Hindex.
      rewrite getElement_snoc, (bind_returned _ _ _ _ _ Hpath).
      unfold resolveStep, getMetaObjectOf.
      rewrite (bind_returned _ _ _ _ _ (getMetaObject_found _ _ _ Hid)).
      unfold fetchEntry, bind, throw. by rewrite Hindex.
    + intros e Hpath. by rewrite getElement_snoc, (bind_threw _ _ _ _ _ Hpath).
Qed.

End Navigation.

(** ** Instances and their histories *)

Section Histories.
Context `{Imports}.

Lemma reachable_initial : reachable initial.
Proof. eapply reachable_new. unfold initial, fields. apply surjective_pairing. Qed.

Lemma reachable_submit cs st : reachable st -> reachable (submit cs st).
Proof.
  intros Hr. eapply reachable_add; [exact Hr|].
  unfold submit, fields. apply surjective_pairing.
Qed.

Lemma reachable_submitAll batches st : reachable st -> reachable (submitAll batches st).
Proof.
  revert st. induction batches as [|cs batches IH]; intros st Hr; simpl; [done|].
  apply IH. by apply reachable_submit.
Qed.

End Histories.

(** ** The engine on concrete logs *)

(** C1. The two replicas are sent the same three batches, every operation
    with or after its dependency, and end with different stores: the key
    [t] of the root object holds site [a]'s value on one and site [b]'s on
    the other. The first replica's log is not sorted. *)
Theorem replicas_diverge :
  toID <$> changes replicaX = ["a@1"; "b@1"; "b@2"; "a@2"] /\
  toID <$> changes replicaY = ["a@1"; "b@1"; "a@2"; "b@2"] /\
  changes replicaX ≡ₚ changes replicaY /\
  entryAt replicaX "b@1" "t" = Some (mkEntry (Some "a@2") (VString "A") OTHER false) /\
  entryAt replicaY "b@1" "t" = Some (mkEntry (Some "b@2") (VString "B") OTHER false) /\
  objects replicaX <> objects replicaY.
Proof.
  split; [evaluate|]. split; [evaluate|]. split.
  { vm_compute. do 2 apply perm_skip. apply perm_swap. }
  split; [evaluate|]. split; [evaluate|].
  intros E.
  apply (f_equal (fun o : gmap ID MetaObject =>
                    match o !! "b@1" with
                    | Some (MMap m) => value <$> m !! IKey "t"
                    | _ => None
                    end)) in E.
  vm_compute in E. discriminate.
Qed.

(** C7. After the batch [[b1; b2]] is merged into the log of a replica
    that holds [a1], the high-water clock is still 1 while the log holds
    an operation of clock 2; [next] hands out clock 2 again. *)
Theorem high_water_clock_left_behind :
  let st := submitAll [[a1]; [b1; b2]] initial in
  toID <$> changes st = ["a@1"; "b@1"; "b@2"] /\
  this_clock st = 1 /\
  greatestClock (changes st) = 2 /\
  next st = 2.
Proof. cbv zeta. evaluate_all. Qed.

(** C2, on a first batch and on a batch that is not ahead of the log. *)
Lemma fast_or_rebuild_witness :
  addChange [a1] initial =
    returning [ensureBackendChange a1]
      (applyChanges [ensureBackendChange a1]
         (mkState (objects initial)
                  (list_to_set (toID <$> [ensureBackendChange a1]) ∪ _seen initial)
                  (default 0 (clock <$> last [ensureBackendChange a1]))
                  (changes initial ++ [ensureBackendChange a1]))) /\
  Sorted changeLe
    (sort changeSortCompare (changes (submit [b1] initial) ++ [ensureBackendChange a1])).
Proof.
  split.
  - assert (Hacc : accepted initial [a1] = [ensureBackendChange a1])
      by (vm_compute; reflexivity).
    pose proof (addChange_fast_or_rebuild initial [a1] _ _ Hacc) as W.
    cbv zeta in W. destruct W as [_ W].
    assert (E : (this_clock initial <? clock (ensureBackendChange a1)) = true)
      by (vm_compute; reflexivity).
    rewrite E in W. exact (proj2 (proj2 W)).
  - assert (Hacc : accepted (submit [b1] initial) [a1] = [ensureBackendChange a1])
      by (vm_compute; reflexivity).
    pose proof (addChange_fast_or_rebuild (submit [b1] initial) [a1] _ _ Hacc) as W.
    cbv zeta in W. destruct W as [_ W].
    assert (E : (this_clock (submit [b1] initial) <? clock (ensureBackendChange a1)) = false)
      by (vm_compute; reflexivity).
    rewrite E in W. exact (proj1 (proj2 W)).
Defined.


(** C4, the claim as stated: an operation submitted twice in one batch is
    accepted twice. *)
Lemma duplicate_in_one_batch_is_logged_twice :
  toID <$> changes (submit [a1; a1] initial) = ["a@1"; "a@1"] /\
  fst (addChange [a1; a1] initial)
    = Returned [ensureBackendChange a1; ensureBackendChange a1].
Proof. evaluate_all. Qed.

(** C6, the claim as stated: a [Delete] whose parent container does not
    exist throws, and so does the call that submits it. *)
Lemma delete_in_missing_container_throws :
  fst (applyDeletion (mkDeletion "x@1" "c@9") initial) =
    Threw (RangeError "Indexable element does not exist at this index") /\
  fst (addChange [strayDelete] initial) =
    Threw (RangeError "Indexable element does not exist at this index").
Proof. evaluate_all. Qed.

(** C8, the claim as stated: the key [k] holds the tombstoned entry
    [a@2]; assigning [k] again puts a live entry in its slot, and the
    tombstoned entry is gone. *)
Lemma assign_replaces_tombstoned_entry :
  entryAt deletedKey "r@1" "k" = Some (mkEntry (Some "a@2") (VNumber 1) OTHER true) /\
  entryAt (submit [k2] deletedKey) "r@1" "k"
    = Some (mkEntry (Some "a@4") (VNumber 2) OTHER false).
Proof. evaluate_all. Qed.

(** C9, the claim as stated: resolving an index below a tombstoned entry
    does not yield an absent identity, it throws. The root slot of a new
    instance is tombstoned, and so is the key [k] once deleted. *)
Lemma resolution_below_tombstone_throws :
  entryAt initial ROOT_PARENT ROOT = Some (mkEntry None VUndefined OTHER true) /\
  fst (getElement [] initial) = Returned VUndefined /\
  fst (getElement [IKey "x"] initial) =
    Threw (RangeError "Indexable element does not exist at this index") /\
  entryAt deletedKey "r@1" "k" = Some (mkEntry (Some "a@2") (VNumber 1) OTHER true) /\
  fst (getElement [IKey "k"] deletedKey) = Returned VUndefined /\
  fst (getElement [IKey "k"; IKey "x"] deletedKey) =
    Threw (RangeError "Indexable element does not exist at this index").
Proof. evaluate_all. Qed.


(** C4, on a replica that is sent two operations of its log again. *)
Lemma resubmission_witness :
  addChange [a1; b2] replicaY = (Returned [], replicaY).
Proof.
  assert (Hr : reachable replicaY) by apply reachable_submitAll, reachable_initial.
  apply (proj1 (proj2 (resubmission_is_filtered replicaY [a1; b2] Hr))).
  intros c Hc.
  assert (E : toID <$> changes replicaY = ["a@1"; "b@1"; "a@2"; "b@2"]) by compute_done.
  rewrite E.
  apply elem_of_cons in Hc as [->|Hc].
  - compute_done.
  - apply elem_of_cons in Hc as [->|Hc]; [compute_done|].
    exfalso. exact (not_elem_of_nil _ Hc).
Defined.

(** C5, on a list-shaped root and on a map-shaped root. *)
Lemma structural_conflict_witness :
  applyChange keyIntoList listDoc =
    (Threw (EvalError "Key assignment into a list should never happen"), listDoc) /\
  applyChange slotIntoMap rooted =
    (Threw (EvalError "Index assignment into an object should never happen"), rooted) /\
  applyChange insertIntoMap rooted =
    (Threw (RangeError "Cannot insert into a non-list"), rooted).
Proof.
  split; [|split].
  - eapply (proj1 (structural_conflict_is_fatal listDoc keyIntoList)).
    reflexivity.
    vm_compute. reflexivity.
  - eapply (proj1 (proj2 (structural_conflict_is_fatal rooted slotIntoMap))); [reflexivity|].
    vm_compute; reflexivity.
  - eapply (proj2 (proj2 (structural_conflict_is_fatal rooted insertIntoMap))); [reflexivity|].
    vm_compute; reflexivity.
Defined.

(** C6, on the live key [k]: deleting its entry flags it. *)
Lemma deletion_witness :
  entryAt (fields (applyDeletion (mkDeletion "a@2" "r@1") keyed)) "r@1" "k"
    = Some (mkEntry (Some "a@2") (VNumber 1) OTHER true).
Proof.
  pose proof (deletion_flags_target keyed (mkDeletion "a@2" "r@1")) as W.
  assert (E : exists m, objects keyed !! "r@1" = Some (MMap m) /\
                        m !! IKey "k" = Some (mkEntry (Some "a@2") (VNumber 1) OTHER false)).
  { vm_compute. eexists. split; reflexivity. }
  destruct E as (m & E & Ek). cbn [d_in d_at] in W. rewrite E in W.
  destruct W as (parent' & Hrun & Hshape & Hflag & _).
  destruct parent' as [m'|l']; [|done].
  unfold entryAt, fields. rewrite Hrun. unfold set_objects. cbn [snd objects].
  rewrite lookup_insert_eq.
  exact (Hflag (IKey "k") _ Ek eq_refl).
Defined.

(** C8, on the tombstoned key [k]: an operation on another key keeps it. *)
Lemma tombstones_witness :
  exists o,
    objects deletedKey !! "r@1" = Some o /\
    exists o',
      objects (fields (applyChange (ensureBackendChange late) deletedKey)) !! "r@1" = Some o' /\
      keeps (assigns (action (ensureBackendChange late)) "r@1") o o'.
Proof.
  eexists. split; [vm_compute; reflexivity|].
  apply tombstones_persist; vm_compute; reflexivity.
Defined.

(** C9, on the live key [k] of the root object, and on an index below
    it: [k] holds a primitive, whose identity names no container. *)
Lemma path_resolution_witness :
  getElement ([] ++ [IKey "k"]) keyed = (Returned (VString "a@2"), keyed) /\
  getElement ([IKey "k"] ++ [IKey "x"]) keyed
    = (Threw (RangeError "Indexable element does not exist at this index"), keyed).
Proof.
  split.
  - destruct (path_resolution keyed [] (IKey "k")) as (_ & _ & _ & _ & W & _).
    etransitivity.
    + eapply (W "r@1"); vm_compute; reflexivity.
    + reflexivity.
  - destruct (path_resolution keyed [IKey "k"] (IKey "x")) as (_ & _ & _ & _ & _ & W & _).
    apply (W (VString "a@2")).
    + vm_compute; reflexivity.
    + intros id [= <-]. vm_compute; reflexivity.
Defined.

(** C10, on a batch whose first operation is held back. *)
Lemma same_batch_witness :
  ensureBackendChange follower
    ∈ filter (fun c => ready (staged rooted [orphan; follower]) c)
             (pass rooted [orphan; follower]) /\
  ensureBackendChange orphan
    ∉ filter (fun c => ready (staged rooted [orphan; follower]) c)
             (pass rooted [orphan; follower]).
Proof.
  assert (E : accepted rooted [orphan; follower]
              = [ensureBackendChange orphan; ensureBackendChange follower]) by compute_done.
  destruct (same_batch_dependency_is_ready rooted [orphan; follower]
              (ensureBackendChange follower) (ensureBackendChange orphan))
    as (_ & _ & Hd & Hx).
  - rewrite E. apply list_elem_of_further, list_elem_of_here.
  - rewrite E. apply list_elem_of_here.
  - compute_done.
  - split; [exact Hd|]. apply Hx. compute_done.
Defined.
(** ** The store as a function of the log *)

Section Rebuild.
Context `{Imports}.

(** What applying an operation returns and leaves in the store depends on
    the store alone. *)
Lemma applyChange_store change st :
  applyChange change st =
    (fst (applyChange change (storeOnly (objects st))),
     set_objects (objects (snd (applyChange change (storeOnly (objects st))))) st).
Proof.
  unfold applyChange, storeOnly.
  destruct (action change) as [a|a|a|a];
    unfold applyAssignment, applyListAssignment, applyInsertion, applyDeletion,
      getMetaObject, setMetaObject, createMetaObject; run;
    destruct (objects st !! _) as [[m|l]|]; simpl; rewrite ?set_objects_same; try done;
    match goal with
    | |- context [item_kind ?i] => destruct (item_kind i); simpl; rewrite ?set_objects_same; done
    end.
Qed.

Lemma forEach_store cs st :
  forEach applyChange cs st =
    (fst (forEach applyChange cs (storeOnly (objects st))),
     set_objects (objects (snd (forEach applyChange cs (storeOnly (objects st))))) st).
Proof.
  revert st. induction cs as [|c cs IH]; intros st; simpl.
  - unfold ret. simpl. by rewrite set_objects_same.
  - unfold bind. rewrite (applyChange_store c st).
    destruct (applyChange c (storeOnly (objects st))) as [[[]|e] st1]; simpl; [|done].
    rewrite IH. simpl. rewrite (IH st1). simpl. done.
Qed.

(** Two instances with one store go through a list of operations alike. *)
Lemma forEach_same_store cs st st2 r st' :
  objects st2 = objects st ->
  forEach applyChange cs st = (r, st') ->
  forEach applyChange cs st2 = (r, set_objects (objects st') st2).
Proof.
  intros Ho Hrun. rewrite forEach_store, Ho. rewrite forEach_store in Hrun.
  by injection Hrun as <- <-.
Qed.

Lemma reapplyAllChanges_unfold st :
  reapplyAllChanges st =
    forEach applyChange (filter (fun c => ready st c) (changes st))
            (set_objects emptyObjects st).
Proof. done. Qed.

(** X3. A rebuild does not read the store it replaces, and rebuilding
    twice is rebuilding once: outcome and fields are the same. *)
Theorem rebuild_is_idempotent (st : State) (o : gmap ID MetaObject) :
  reapplyAllChanges (set_objects o st) = reapplyAllChanges st /\
  reapplyAllChanges (fields (reapplyAllChanges st)) = reapplyAllChanges st.
Proof.
  split; [done|].
  rewrite (reapplyAllChanges_unfold st).
  destruct (forEach_applyChange_frame
              (filter (fun c => ready st c) (changes st)) (set_objects emptyObjects st))
    as [o' Ho'].
  unfold fields. rewrite Ho'. done.
Qed.

Lemma filter_ready_ext (st st2 : State) (cs : list BackendChange) :
  (forall c, c ∈ cs -> ready st c = ready st2 c) ->
  filter (fun c => ready st c) cs = filter (fun c => ready st2 c) cs.
Proof.
  induction cs as [|c cs IH]; intros Hext; [done|].
  rewrite !filter_cons, (Hext c) by left.
  rewrite IH by (intros c' Hc'; apply Hext; by right). done.
Qed.

End Rebuild.

Section StoreFollowsLog.
Context `{Imports}.

Lemma void_returning {A} (a : A) (r : Outcome unit * State) :
  void (fst (returning a r)) = fst r /\ fields (returning a r) = snd r.
Proof. by destruct r as [[[]|e] st]. Qed.

Lemma staged_rebuild st cs first rest :
  accepted st cs = first :: rest -> clock first <= this_clock st ->
  staged st cs =
    mkState emptyObjects (list_to_set (toID <$> accepted st cs) ∪ _seen st) (this_clock st)
            (sort changeSortCompare (changes st ++ accepted st cs)) /\
  pass st cs = sort changeSortCompare (changes st ++ accepted st cs).
Proof.
  intros Hacc Hslow. unfold staged, pass. rewrite Hacc.
  destruct (Z.ltb_spec (this_clock st) (clock first)); [lia|done].
Qed.

Lemma staged_fast st cs first rest :
  accepted st cs = first :: rest -> this_clock st < clock first ->
  staged st cs =
    mkState (objects st) (list_to_set (toID <$> accepted st cs) ∪ _seen st)
            (default 0 (clock <$> last (accepted st cs)))
            (changes st ++ accepted st cs) /\
  pass st cs = accepted st cs.
Proof.
  intros Hacc Hfast. unfold staged, pass. rewrite Hacc.
  destruct (Z.ltb_spec (this_clock st) (clock first)); [done|lia].
Qed.

Lemma rebuild_of_result st1 ops r st2 :
  forEach applyChange ops st1 = (r, st2) ->
  reapplyAllChanges st2 = reapplyAllChanges st1.
Proof.
  intros Hrun. destruct (forEach_applyChange_frame ops st1) as [o Ho].
  rewrite Hrun in Ho. simpl in Ho. by subst st2.
Qed.

(** A pass over the whole log from the empty root is a rebuild. *)
Lemma rebuild_after_rebuild st1 r st2 :
  objects st1 = emptyObjects ->
  forEach applyChange (filter (fun c => ready st1 c) (changes st1)) st1 = (r, st2) ->
  reapplyAllChanges st2 = (r, st2).
Proof.
  intros Ho Hrun. rewrite (rebuild_of_result _ _ _ _ Hrun), reapplyAllChanges_unfold.
  by rewrite <- Ho, set_objects_same.
Qed.

(** A pass over the new tail of the log, from the replay of the rest, is a
    rebuild. *)
Lemma rebuild_after_append st1 old batch r st2 :
  changes st1 = (old ++ batch)%list ->
  forEach applyChange (filter (fun c => ready st1 c) old) (set_objects emptyObjects st1)
    = (Returned tt, st1) ->
  forEach applyChange (filter (fun c => ready st1 c) batch) st1 = (r, st2) ->
  reapplyAllChanges st2 = (r, st2).
Proof.
  intros Hlog Hold Hrun.
  rewrite (rebuild_of_result _ _ _ _ Hrun), reapplyAllChanges_unfold, Hlog.
  rewrite filter_app, forEach_app. unfold bind. by rewrite Hold.
Qed.

(** X4. After a call the store is the replay of the log in log order: a
    rebuild of the instance the call leaves gives the call's own outcome
    and changes no field. On the rebuild path this holds always; on the
    fast path it holds when the store was the replay of the log before and
    no operation of the log names an accepted operation as its
    dependency. A call that accepts nothing changes no field. *)
Theorem store_is_replay_of_log (st : State) (cs : list Change) :
  let st' := fields (addChange cs st) in
  (accepted st cs = [] -> st' = st) /\
  (forall first rest,
     accepted st cs = first :: rest -> clock first <= this_clock st ->
     reapplyAllChanges st' = (void (fst (addChange cs st)), st')) /\
  (forall first rest,
     accepted st cs = first :: rest -> this_clock st < clock first ->
     replayed st ->
     (forall c d, c ∈ changes st -> dep c = Some d -> d ∉ toID <$> accepted st cs) ->
     reapplyAllChanges st' = (void (fst (addChange cs st)), st')).
Proof.
  intros st'. unfold st'. rewrite addChange_staged, applyChanges_unfold.
  destruct (void_returning (accepted st cs)
              (forEach applyChange (filter (fun c => ready (staged st cs) c) (pass st cs))
                       (staged st cs))) as [-> ->].
  split; [|split].
  - intros Hacc. unfold pass, staged. rewrite Hacc. simpl.
    rewrite (left_id_L ∅ (∪)). by destruct st.
  - intros first rest Hacc Hslow.
    destruct (staged_rebuild st cs first rest Hacc Hslow) as [Hst Hpass].
    apply (rebuild_after_rebuild (staged st cs)).
    + by rewrite Hst.
    + assert (Hlog : changes (staged st cs)
                     = sort changeSortCompare (changes st ++ accepted st cs))
        by (by rewrite Hst).
      rewrite Hpass, <- Hlog. apply surjective_pairing.
  - intros first rest Hacc Hfast Hreplayed Hdeps.
    destruct (staged_fast st cs first rest Hacc Hfast) as [Hst Hpass].
    apply (rebuild_after_append (staged st cs) (changes st) (accepted st cs)).
    + by rewrite Hst.
    + assert (Hready : filter (fun c => ready (staged st cs) c) (changes st)
                       = filter (fun c => ready st c) (changes st)).
      { apply filter_ready_ext. intros c Hc. unfold ready.
        destruct (dep c) as [d|] eqn:Hd; [|done]. case_decide; [done|].
        unfold seen. apply bool_decide_ext. rewrite staged_seen, elem_of_union.
        rewrite elem_of_list_to_set. split; [|tauto].
        intros [Hin|Hin]; [|done]. by destruct (Hdeps c d Hc Hd). }
      rewrite Hready. unfold replayed in Hreplayed.
      rewrite reapplyAllChanges_unfold in Hreplayed.
      rewrite (forEach_same_store _ (set_objects emptyObjects st)
                 (set_objects emptyObjects (staged st cs)) _ _ eq_refl Hreplayed).
      f_equal. rewrite Hst. done.
    + rewrite Hpass. apply surjective_pairing.
Qed.

End StoreFollowsLog.

(** ** The log, the seen-set and the clock *)

Section LogAndClock.
Context `{Imports}.

(** X1. On every instance the seen-set holds exactly the identities of the
    operations of the log. *)
Theorem seen_set_holds_the_log (st : State) (id : ID) :
  reachable st ->
  id ∈ _seen st <-> exists c, c ∈ changes st /\ toID c = id.
Proof.
  intros Hr. rewrite (reachable_seen st Hr), elem_of_list_to_set, list_elem_of_fmap.
  split; intros (c & Hc1 & Hc2); exists c; by split.
Qed.

Lemma accepted_perm st cs :
  accepted st cs
    ≡ₚ ensureBackendChange <$> filter (fun c => negb (seen st (inl c))) cs.
Proof. unfold accepted. apply sort_perm. Qed.

Lemma staged_log st cs : changes (staged st cs) ≡ₚ changes st ++ accepted st cs.
Proof.
  unfold staged. destruct (accepted st cs) as [|first rest] eqn:Hacc; simpl.
  - by rewrite app_nil_r.
  - destruct (this_clock st <? clock first); simpl; [done|]. apply sort_perm.
Qed.

(** X2. Whether a call returns or throws, the log it leaves holds the old
    log and the accepted operations and nothing else, and the seen-set has
    grown by their identities. What a call returns is sorted by clock, then
    site, and is, up to order, the normalised operations of the batch whose
    identity was not seen. *)
Theorem call_extends_log (st : State) (cs : list Change) :
  let st' := fields (addChange cs st) in
  changes st' ≡ₚ changes st ++ accepted st cs /\
  _seen st' = list_to_set (toID <$> accepted st cs) ∪ _seen st /\
  (forall r, fst (addChange cs st) = Returned r ->
     Sorted changeLe r /\
     r ≡ₚ ensureBackendChange <$> filter (fun c => negb (seen st (inl c))) cs /\
     changes st' ≡ₚ changes st ++ r).
Proof.
  intros st'. unfold st'. destruct (addChange_fields st cs) as [o Ho]. rewrite Ho. simpl.
  split; [apply staged_log|]. split; [apply staged_seen|].
  intros r Hr.
  assert (r = accepted st cs) as ->.
  { rewrite addChange_staged in Hr. unfold returning in Hr.
    destruct (applyChanges _ _) as [[[]|e] st1]; simpl in Hr; congruence. }
  split; [apply sort_sorted|]. split; [apply accepted_perm|apply staged_log].
Qed.

Lemma greatest_from (b : Z) (cs : list BackendChange) :
  let g := foldr (fun c acc => Z.max (clock c) acc) b cs in
  b <= g /\ Forall (fun c => clock c <= g) cs /\
  (g = b \/ exists c, c ∈ cs /\ clock c = g).
Proof.
  induction cs as [|c cs (IHb & IHall & IHin)]; simpl.
  { split; [lia|]. split; [constructor|by left]. }
  split; [lia|]. split.
  - constructor; [lia|]. eapply Forall_impl; [exact IHall|]. simpl. intros; lia.
  - destruct (Z.max_spec (clock c) (foldr (fun c acc => Z.max (clock c) acc) b cs))
      as [[_ ->]|[_ ->]].
    + destruct IHin as [->|(c' & Hc' & <-)]; [by left|].
      right. exists c'. split; [by right|done].
    + right. exists c. split; [by left|done].
Qed.

Lemma greatestClock_ge (cs : list BackendChange) :
  Forall (fun c => clock c <= greatestClock cs) cs.
Proof.
  destruct cs as [|c cs]; [constructor|]. unfold greatestClock.
  destruct (greatest_from (clock c) cs) as (Hb & Hall & _). by constructor.
Qed.



Lemma clock_moves_up st cs : this_clock st <= this_clock (fields (addChange cs st)).
Proof.
  destruct (addChange_fields st cs) as [o ->]. simpl. unfold staged.
  destruct (accepted st cs) as [|first rest] eqn:Hacc; simpl; [lia|].
  destruct (Z.ltb_spec (this_clock st) (clock first)); simpl; [|lia].
  assert (Hs : Sorted changeLe (first :: rest)) by (rewrite <- Hacc; apply sort_sorted).
  apply sorted_last_greatest, Forall_cons_1 in Hs as [Hfirst _].
  eapply Z.le_trans; [|exact Hfirst]. lia.
Qed.

Lemma last_clock_logged (cs : list BackendChange) :
  default 0 (clock <$> last cs) = 0 \/
  exists c, c ∈ cs /\ clock c = default 0 (clock <$> last cs).
Proof.
  destruct (last cs) as [c|] eqn:Hlast; simpl; [|by left].
  right. exists c. split; [|done].
  apply last_Some in Hlast as [l' ->]. apply elem_of_app. right. left.
Qed.

Lemma reachable_clock_logged st :
  reachable st ->
  this_clock st = 0 \/ exists c, c ∈ changes st /\ clock c = this_clock st.
Proof.
  induction 1 as [cs r st Hnew|cs st r st' Hreach IH Hadd].
  - destruct (newState_fields cs) as [o Ho]. unfold fields in Ho.
    rewrite Hnew in Ho. simpl in Ho. subst st. simpl. apply last_clock_logged.
  - destruct (addChange_fields st cs) as [o Ho]. unfold fields in Ho.
    rewrite Hadd in Ho. simpl in Ho. subst st'. simpl. unfold staged.
    destruct (accepted st cs) as [|first rest] eqn:Hacc; simpl; [done|].
    destruct (Z.ltb_spec (this_clock st) (clock first)); simpl.
    + destruct (last_clock_logged (first :: rest)) as [->|(c & Hc & <-)]; [by left|].
      right. exists c. split; [|done]. apply elem_of_app. by right.
    + destruct IH as [->|(c & Hc & <-)]; [by left|].
      right. exists c. split; [|done]. rewrite sort_perm. apply elem_of_app. by left.
Qed.

Lemma reachable_clock_le st :
  reachable st -> this_clock st <= Z.max 0 (greatestClock (changes st)).
Proof.
  intros Hr. destruct (reachable_clock_logged st Hr) as [->|(c & Hc & <-)]; [lia|].
  pose proof (greatestClock_ge (changes st)) as Hall.
  rewrite Forall_forall in Hall. specialize (Hall c Hc). simpl in Hall. lia.
Qed.

(** X6. The high-water clock of an instance is 0 or the clock of an
    operation of its log, so it never lies above the greater of 0 and the
    greatest clock of the log; and no call moves it down. *)
Theorem high_water_clock_is_logged (st : State) (cs : list Change) :
  reachable st ->
  (this_clock st = 0 \/ exists c, c ∈ changes st /\ clock c = this_clock st) /\
  this_clock st <= Z.max 0 (greatestClock (changes st)) /\
  this_clock st <= this_clock (fields (addChange cs st)).
Proof.
  intros Hr. split; [by apply reachable_clock_logged|].
  split; [by apply reachable_clock_le|apply clock_moves_up].
Qed.

(** X7. On every instance the identity [latest] hands out is in the
    seen-set: an operation that names it as its dependency, or names none
    because the log is empty, passes the gate. *)
Theorem latest_passes_the_gate (st : State) (change : BackendChange) :
  reachable st -> dep change = latest st -> ready st change = true.
Proof.
  intros Hr Hdep. unfold ready. rewrite Hdep. unfold latest.
  destruct (last (changes st)) as [c|] eqn:Hlast; simpl; [|done].
  case_decide; [done|]. unfold seen. apply bool_decide_eq_true.
  rewrite (reachable_seen st Hr). apply elem_of_list_to_set, list_elem_of_fmap.
  exists c. split; [done|]. apply last_Some in Hlast as [l' ->].
  apply elem_of_app. right. left.
Qed.

End LogAndClock.

Section SortedLog.
Context `{Imports}.

Lemma Sorted_append {A} (R : A -> A -> Prop) (l1 l2 : list A) :
  Sorted R l1 -> Sorted R l2 ->
  (forall x y, x ∈ l1 -> head l2 = Some y -> R x y) ->
  Sorted R (l1 ++ l2).
Proof.
  intros Hs1 Hs2 Hr. induction Hs1 as [|x l1 Hs1 IH Hd]; simpl; [done|].
  constructor.
  - apply IH. intros x' y Hx' Hy. apply (Hr x' y); [by right|done].
  - destruct Hd as [|x1 l1 Hx1]; simpl.
    + destruct l2 as [|y l2]; constructor. apply (Hr x y); [left|done].
    + by constructor.
Qed.


Lemma call_keeps_sorted (st : State) (cs : list Change) :
  Sorted changeLe (changes st) ->
  Forall (fun c => clock c <= this_clock st) (changes st) ->
  let st' := fields (addChange cs st) in
  Sorted changeLe (changes st') /\
  (Forall (fun c => this_clock st < clock c) (accepted st cs) \/
   Forall (fun c => clock c <= this_clock st) (accepted st cs) ->
   Forall (fun c => clock c <= this_clock st') (changes st')).
Proof.
  intros Hsorted Hbound st'. unfold st'.
  destruct (addChange_fields st cs) as [o ->]. simpl. unfold staged.
  destruct (accepted st cs) as [|first rest] eqn:Hacc; simpl; [done|].
  assert (Hbatch : Sorted changeLe (first :: rest)) by (rewrite <- Hacc; apply sort_sorted).
  destruct (Z.ltb_spec (this_clock st) (clock first)) as [Hfast|Hslow]; simpl.
  - split.
    + apply Sorted_append; [done..|]. intros x y Hx [= <-]. left.
      rewrite Forall_forall in Hbound. specialize (Hbound x Hx). simpl in Hbound. lia.
    + intros _. pose proof (sorted_last_greatest _ Hbatch) as Hlast.
      apply Forall_app. split; [|exact Hlast].
      apply Forall_cons_1 in Hlast as [Hfirst _].
      eapply Forall_impl; [exact Hbound|]. simpl. intros c Hc.
      eapply Z.le_trans; [|exact Hfirst]. lia.
  - split; [apply sort_sorted|]. intros [Habove|Hbelow].
    + apply Forall_cons_1 in Habove as [Habove _]. lia.
    + rewrite sort_perm. apply Forall_app. by split.
Qed.

(** X5. A call made on a sorted log with no clock above the high-water
    clock leaves the log sorted. It leaves no clock of the log above the
    high-water clock when the accepted operations all lie above the old
    high-water clock or none does. *)
Theorem log_stays_sorted (st : State) (cs : list Change) :
  Sorted changeLe (changes st) ->
  Forall (fun c => clock c <= this_clock st) (changes st) ->
  let st' := fields (addChange cs st) in
  Sorted changeLe (changes st') /\
  (Forall (fun c => this_clock st < clock c) (accepted st cs) \/
   Forall (fun c => clock c <= this_clock st) (accepted st cs) ->
   Forall (fun c => clock c <= this_clock st') (changes st')).
Proof. apply call_keeps_sorted. Qed.





End SortedLog.

(** ** Operations on the store *)

Section Operations.
Context `{Imports}.

Lemma createMetaObject_fields item st :
  createMetaObject item st =
    (Returned tt,
     match item_kind item with
     | OTHER => st
     | OBJECT => set_objects (<[item_name item := MMap ∅]> (objects st)) st
     | ARRAY => set_objects (<[item_name item := MList []]> (objects st)) st
     end).
Proof. unfold createMetaObject, setMetaObject. by destruct (item_kind item). Qed.

Lemma written_and_created _in o' item st :
  (setMetaObject _in o' ;; createMetaObject item) st =
    (Returned tt,
     let st1 := set_objects (<[_in := o']> (objects st)) st in
     match item_kind item with
     | OTHER => st1
     | OBJECT => set_objects (<[item_name item := MMap ∅]> (objects st1)) st1
     | ARRAY => set_objects (<[item_name item := MList []]> (objects st1)) st1
     end).
Proof.
  unfold bind, setMetaObject at 1, modify. by rewrite createMetaObject_fields.
Qed.

(** X9. An [Assign] into a map container returns. Unless its item is a
    container that carries the parent's own identity, the parent then holds
    the item's live entry under the assigned key, whatever the key held,
    and its other keys as they were. A container item gets an empty
    container of its kind under its identity, also when a container of
    that identity existed; no other container is touched. *)
Theorem assignment_writes_key (st : State) (a : BackendAssignment) (m : gmap Index Entry) :
  objects st !! a_in a = Some (MMap m) ->
  let st' := fields (applyAssignment a st) in
  fst (applyAssignment a st) = Returned tt /\
  (item_name (a_item a) <> a_in a \/ item_kind (a_item a) = OTHER ->
   exists m',
     objects st' !! a_in a = Some (MMap m') /\
     m' !! a_at a = Some (entryOf (a_item a)) /\
     forall k, k <> a_at a -> m' !! k = m !! k) /\
  (item_kind (a_item a) = OBJECT ->
   objects st' !! item_name (a_item a) = Some (MMap ∅)) /\
  (item_kind (a_item a) = ARRAY ->
   objects st' !! item_name (a_item a) = Some (MList [])) /\
  (forall id, id <> a_in a ->
     id <> item_name (a_item a) \/ item_kind (a_item a) = OTHER ->
     objects st' !! id = objects st !! id).
Proof.
  intros Hin st'. unfold st', applyAssignment.
  rewrite (bind_returned _ _ _ _ _ (getMetaObject_found _ _ _ Hin)).
  rewrite written_and_created. unfold fields. cbn [fst snd].
  split; [done|]. split; [|split; [|split]].
  - intros Hown. exists (<[a_at a := entryOf (a_item a)]> m).
    split; [|split].
    + destruct (item_kind (a_item a)) eqn:Hk; cbn [objects set_objects];
        [by rewrite lookup_insert_eq|..];
        (destruct Hown as [Hown|Hown]; [|done]);
        by rewrite lookup_insert_ne, lookup_insert_eq.
    + by rewrite lookup_insert_eq.
    + intros k Hk. by rewrite lookup_insert_ne.
  - intros ->. cbn [objects set_objects]. by rewrite lookup_insert_eq.
  - intros ->. cbn [objects set_objects]. by rewrite lookup_insert_eq.
  - intros id Hid Hitem.
    destruct (item_kind (a_item a)) eqn:Hk; cbn [objects set_objects];
      [by rewrite lookup_insert_ne|..];
      (destruct Hitem as [Hitem|Hitem]; [|done]);
      by rewrite !lookup_insert_ne.
Qed.

Lemma applyChange_elsewhere change st id :
  id <> parentOf (action change) ->
  creates (action change) id = false ->
  objects (fields (applyChange change st)) !! id = objects st !! id.
Proof.
  intros Hp Hc. unfold applyChange.
  destruct (action change) as [a|a|a|a]; simpl in Hp, Hc.
  - unfold applyAssignment.
    destruct (objects st !! a_in a) as [[m|l]|] eqn:Hin.
    + rewrite (bind_returned _ _ _ _ _ (getMetaObject_found _ _ _ Hin)).
      rewrite written_back by done. by rewrite decide_False.
    + by rewrite (bind_returned _ _ _ _ _ (getMetaObject_found _ _ _ Hin)).
    + by rewrite (bind_threw _ _ _ _ _ (getMetaObject_missing _ _ Hin)).
  - unfold applyListAssignment.
    destruct (objects st !! la_in a) as [[m|l]|] eqn:Hin.
    + by rewrite (bind_returned _ _ _ _ _ (getMetaObject_found _ _ _ Hin)).
    + rewrite (bind_returned _ _ _ _ _ (getMetaObject_found _ _ _ Hin)).
      rewrite written_back by done. by rewrite decide_False.
    + by rewrite (bind_threw _ _ _ _ _ (getMetaObject_missing _ _ Hin)).
  - unfold applyInsertion.
    destruct (objects st !! i_in a) as [[m|l]|] eqn:Hin.
    + by rewrite (bind_returned _ _ _ _ _ (getMetaObject_found _ _ _ Hin)).
    + rewrite (bind_returned _ _ _ _ _ (getMetaObject_found _ _ _ Hin)).
      rewrite written_back by done. by rewrite decide_False.
    + by rewrite (bind_threw _ _ _ _ _ (getMetaObject_missing _ _ Hin)).
  - unfold applyDeletion.
    destruct (objects st !! d_in a) as [parent|] eqn:Hin.
    + rewrite (bind_returned _ _ _ _ _ (getMetaObject_found _ _ _ Hin)).
      destruct parent; unfold setMetaObject; run; by rewrite lookup_insert_ne.
    + by rewrite (bind_threw _ _ _ _ _ (getMetaObject_missing _ _ Hin)).
Qed.

(** X10. Applying an operation, whether it returns or throws, changes no
    container but the one it addresses and the one it introduces, and
    leaves the log, the seen-set and the clock alone. *)
Theorem operation_touches_its_containers_only
    (st : State) (change : BackendChange) (id : ID) :
  id <> parentOf (action change) ->
  creates (action change) id = false ->
  let st' := fields (applyChange change st) in
  objects st' !! id = objects st !! id /\
  changes st' = changes st /\ _seen st' = _seen st /\ this_clock st' = this_clock st.
Proof.
  intros Hp Hc st'. split; [by apply applyChange_elsewhere|].
  unfold st', fields. destruct (applyChange_frame change st) as [o ->]. done.
Qed.

Lemma applyDeletion_fields d st :
  fields (applyDeletion d st) =
    set_objects (alter (tombstoneIn (d_at d)) (d_in d) (objects st)) st.
Proof.
  unfold applyDeletion.
  destruct (objects st !! d_in d) as [parent|] eqn:Hin.
  - rewrite (bind_returned _ _ _ _ _ (getMetaObject_found _ _ _ Hin)).
    assert (Halter : alter (tombstoneIn (d_at d)) (d_in d) (objects st)
                     = <[d_in d := tombstoneIn (d_at d) parent]> (objects st)).
    { apply map_eq. intros i. rewrite lookup_alter, lookup_insert.
      case_decide; [subst; by rewrite Hin|done]. }
    rewrite Halter. by destruct parent.
  - rewrite (bind_threw _ _ _ _ _ (getMetaObject_missing _ _ Hin)).
    unfold fields. simpl.
    assert (Halter : alter (tombstoneIn (d_at d)) (d_in d) (objects st) = objects st).
    { apply map_eq. intros i. rewrite lookup_alter.
      case_decide; [subst; by rewrite Hin|done]. }
    by rewrite Halter, set_objects_same.
Qed.

Lemma tombstone_commute a b e : tombstone a (tombstone b e) = tombstone b (tombstone a e).
Proof. unfold tombstone. repeat (case_decide; simpl in *); done. Qed.

Lemma tombstoneIn_commute a b o :
  tombstoneIn a (tombstoneIn b o) = tombstoneIn b (tombstoneIn a o).
Proof.
  destruct o as [m|l]; simpl; f_equal.
  - apply map_eq. intros k. rewrite !lookup_fmap.
    destruct (m !! k); simpl; [|done]. by rewrite tombstone_commute.
  - apply list_eq. intros i. rewrite !list_lookup_fmap.
    destruct (l !! i); simpl; [|done]. by rewrite tombstone_commute.
Qed.

Lemma tombstoneIn_twice a o : tombstoneIn a (tombstoneIn a o) = tombstoneIn a o.
Proof.
  assert (Ht : forall e, tombstone a (tombstone a e) = tombstone a e).
  { intros e. unfold tombstone. repeat (case_decide; simpl in *); done. }
  destruct o as [m|l]; simpl; f_equal.
  - apply map_eq. intros k. rewrite !lookup_fmap.
    destruct (m !! k); simpl; [|done]. by rewrite Ht.
  - apply list_eq. intros i. rewrite !list_lookup_fmap.
    destruct (l !! i); simpl; [|done]. by rewrite Ht.
Qed.

(** X11. Deletions compose freely: applying a [Delete] twice leaves the
    fields the first application leaves, and two [Delete]s leave the same
    fields in either order. *)
Theorem deletions_compose (st : State) (d d' : Deletion) :
  fields (applyDeletion d (fields (applyDeletion d st))) = fields (applyDeletion d st) /\
  fields (applyDeletion d' (fields (applyDeletion d st)))
    = fields (applyDeletion d (fields (applyDeletion d' st))).
Proof.
  rewrite !applyDeletion_fields. unfold set_objects. cbn [objects _seen this_clock changes].
  split; f_equal; apply map_eq; intros i; rewrite !lookup_alter.
  - destruct (decide (d_in d = i)) as [->|]; [|done].
    rewrite decide_True by done.
    destruct (objects st !! i); simpl; [|done]. by rewrite tombstoneIn_twice.
  - destruct (decide (d_in d' = i)) as [->|], (decide (d_in d = i)) as [->|];
      rewrite ?decide_True by done; rewrite ?decide_False by done; try done.
    destruct (objects st !! i); simpl; [|done]. by rewrite tombstoneIn_commute.
Qed.

End Operations.

(** ** The navigator reads, and the parent of a path *)

Section Navigation.
Context `{Imports}.

Lemma getMetaObjectOf_reads n st : snd (getMetaObjectOf n st) = st.
Proof.
  destruct n; try done. unfold getMetaObjectOf, getMetaObject. run.
  by destruct (objects st !! s).
Qed.

Lemma getMetaObjectOf_returned n o st st' :
  getMetaObjectOf n st = (Returned o, st') ->
  exists id, n = VString id /\ objects st !! id = Some o /\ st' = st.
Proof.
  destruct n as [| | | |id]; try done. unfold getMetaObjectOf, getMetaObject. run.
  destruct (objects st !! id) as [o'|] eqn:E; [|done].
  intros [= <- <-]. by exists id.
Qed.

Lemma resolveStep_reads n i st : snd (resolveStep n i st) = st.
Proof.
  unfold resolveStep, bind.
  pose proof (getMetaObjectOf_reads n st) as Hn.
  destruct (getMetaObjectOf n st) as [[o|e] st1]; simpl in Hn; subst st1; [|done].
  destruct o as [m|l]; simpl; [done|].
  by destruct (ensureNumber i).
Qed.

Lemma reduce_reads p n st : snd (reduce p n st) = st.
Proof.
  revert n st. induction p as [|i p IH]; intros n st; simpl; [done|].
  unfold bind. pose proof (resolveStep_reads n i st) as Hs.
  destruct (resolveStep n i st) as [[n'|e] st1]; simpl in Hs; subst st1; [|done].
  apply IH.
Qed.

Lemma getParentElement_snoc path index st :
  getParentElement (path ++ [index]) st =
    (element <- getElement path ;; getMetaObjectOf element ;; ret element) st.
Proof.
  unfold getParentElement, getElement.
  by rewrite (app_comm_cons path [index] (IKey ROOT)), removelast_last.
Qed.

(** X12. Resolving a path or the parent of a path changes no field of the
    instance. The parent of a path is resolved without its last index: it
    is what the path without that index resolves to, provided that names a
    container, and a [RangeError] otherwise; the parent of the empty path
    is [ROOT_PARENT]. Wherever the whole path resolves, so does its
    parent. *)
Theorem parent_of_path (st : State) (path : list Index) (index : Index) :
  fields (getElement path st) = st /\
  fields (getParentElement path st) = st /\
  (forall o, objects st !! ROOT_PARENT = Some o ->
     getParentElement [] st = (Returned (VString ROOT_PARENT), st)) /\
  (forall v, fst (getParentElement (path ++ [index]) st) = Returned v <->
     fst (getElement path st) = Returned v /\
     exists id o, v = VString id /\ objects st !! id = Some o) /\
  (forall v, fst (getElement path st) = Returned v ->
     (forall id, v = VString id -> objects st !! id = None) ->
     fst (getParentElement (path ++ [index]) st) =
       Threw (RangeError "Indexable element does not exist at this index")) /\
  (forall v, fst (getElement (path ++ [index]) st) = Returned v ->
     exists p, fst (getParentElement (path ++ [index]) st) = Returned p).
Proof.
  assert (Hread : forall p, fields (getElement p st) = st).
  { intros p. apply reduce_reads. }
  assert (Hparent : forall v,
            fst (getElement path st) = Returned v ->
            fst (getParentElement (path ++ [index]) st) =
              match getMetaObjectOf v st with
              | (Returned _, _) => Returned v
              | (Threw e, _) => Threw e
              end).
  { intros v Hv. rewrite getParentElement_snoc. unfold bind.
    pose proof (Hread path) as Hp. unfold fields in Hp.
    destruct (getElement path st) as [r st1]. simpl in Hv, Hp. subst r st1.
    by destruct (getMetaObjectOf v st) as [[o|e] st1]. }
  split; [apply Hread|]. split; [|split; [|split; [|split]]].
  - unfold getParentElement, fields, bind.
    pose proof (reduce_reads (removelast (IKey ROOT :: path)) (VString ROOT_PARENT) st) as Hp.
    unfold getElementImpl.
    destruct (reduce _ _ st) as [[n|e] st1]; simpl in Hp; subst st1; [|done].
    pose proof (getMetaObjectOf_reads n st) as Hn.
    by destruct (getMetaObjectOf n st) as [[o|e] st1]; simpl in Hn; subst st1.
  - intros o Ho. unfold getParentElement, getElementImpl. simpl.
    unfold bind, ret. simpl. by rewrite (getMetaObject_found _ _ _ Ho).
  - intros v. split.
    + intros Hv. rewrite getParentElement_snoc in Hv. unfold bind in Hv.
      pose proof (Hread path) as Hp. unfold fields in Hp.
      destruct (getElement path st) as [[n|e] st1]; simpl in Hp; subst st1; [|done].
      destruct (getMetaObjectOf n st) as [[o|e] st1] eqn:Ho; [|done].
      simpl in Hv. injection Hv as <-. split; [done|].
      destruct (getMetaObjectOf_returned _ _ _ _ Ho) as (id & -> & Hid & _).
      by exists id, o.
    + intros [Hv (id & o & -> & Ho)]. rewrite (Hparent _ Hv). simpl.
      by rewrite (getMetaObject_found _ _ _ Ho).
  - intros v Hv Hnone. rewrite (Hparent _ Hv).
    destruct v as [| | | |id]; try done. simpl.
    by rewrite (getMetaObject_missing _ _ (Hnone id eq_refl)).
  - intros v Hv. rewrite getElement_snoc in Hv. unfold bind in Hv.
    pose proof (Hread path) as Hp. unfold fields in Hp.
    destruct (getElement path st) as [[n|e] st1] eqn:Hpath; simpl in Hp; subst st1; [|done].
    exists n. rewrite (Hparent n) by done.
    unfold resolveStep, bind in Hv.
    by destruct (getMetaObjectOf n st) as [[o|e] st1].
Qed.

End Navigation.

(** ** The constructor and a first submit *)

Section Construction.
Context `{Imports}.

Lemma sort_sorted_same (l : list BackendChange) :
  Sorted changeLt l -> sort changeSortCompare l = l.
Proof.
  induction 1 as [|x l Hl IH Hhd]; simpl; [done|].
  rewrite IH. destruct Hhd as [|y l' Hxy]; simpl; [done|].
  unfold changeLt in Hxy. apply compare_less_greater in Hxy.
  by rewrite (proj2 (Z.ltb_ge _ _)) by lia.
Qed.

Lemma ensureBackendChange_asSubmitted (c : BackendChange) :
  ensureBackendChange (asSubmitted c) = c.
Proof. by destruct c. Qed.

Lemma ensureBackendChange_asSubmitted_all (cs : list BackendChange) :
  ensureBackendChange <$> (asSubmitted <$> cs) = cs.
Proof.
  induction cs as [|c cs IH]; [done|].
  by rewrite !fmap_cons, ensureBackendChange_asSubmitted, IH.
Qed.

Lemma accepted_initial (cs : list BackendChange) :
  Sorted changeLt cs -> accepted initial (asSubmitted <$> cs) = cs.
Proof.
  intros Hs. unfold accepted.
  assert (Hall : filter (fun c : Change => Is_true (negb (seen initial (inl c))))
                   (asSubmitted <$> cs) = asSubmitted <$> cs).
  { induction (asSubmitted <$> cs) as [|c l IH]; [done|].
    rewrite filter_cons_True, IH; [done|]. unfold seen, initial.
    destruct (newState_fields []) as [o ->]. simpl.
    rewrite bool_decide_eq_false_2; [done|].
    rewrite (right_id_L ∅ (∪)). apply not_elem_of_empty. }
  rewrite Hall, ensureBackendChange_asSubmitted_all.
  by apply sort_sorted_same.
Qed.

Lemma newState_unfold cs :
  newState cs =
    applyChanges cs (mkState emptyObjects (list_to_set (toID <$> cs) ∪ ∅)
                             (default 0 (clock <$> last cs)) cs).
Proof. done. Qed.

(** X13. Submitting a log to the instance built from the empty log does
    what the constructor does with it: for a log in strictly ascending
    order whose first clock is positive, the two leave the same fields,
    both return or both throw the same error, and the submit hands the log
    back. *)
Theorem first_submit_is_construction (cs : list BackendChange) :
  Sorted changeLt cs ->
  (forall c, head cs = Some c -> 0 < clock c) ->
  addChange (asSubmitted <$> cs) initial = returning cs (newState cs).
Proof.
  intros Hs Hpos. rewrite addChange_staged, newState_unfold.
  unfold pass, staged. rewrite (accepted_initial _ Hs).
  assert (Hinit : initial = mkState emptyObjects (∅ ∪ ∅) 0 []) by done.
  assert (Hseen : forall ids : gset ID, ids ∪ _seen initial = ids ∪ ∅).
  { intros ids. rewrite Hinit. cbn [_seen]. by rewrite !(right_id_L ∅ (∪)). }
  destruct cs as [|first rest].
  - unfold set_seen. rewrite Hseen. by rewrite Hinit.
  - assert (Hfast : (this_clock initial <? clock first) = true).
    { apply Z.ltb_lt. rewrite Hinit. simpl. by apply Hpos. }
    rewrite Hfast, Hseen. by rewrite Hinit.
Qed.

End Construction.

(** ** Convergence of instances that keep the invariants *)

Section Convergence.
Context `{Imports}.

Lemma ascii_compare_lt_trans a b c :
  Ascii.compare a b = Lt -> Ascii.compare b c = Lt -> Ascii.compare a c = Lt.
Proof.
  unfold Ascii.compare. rewrite !N.compare_lt_iff. apply N.lt_trans.
Qed.

Lemma string_compare_lt_trans a b c :
  String.compare a b = Lt -> String.compare b c = Lt -> String.compare a c = Lt.
Proof.
  revert b c. induction a as [|x a IH]; intros [|y b] [|z c]; simpl; try done.
  destruct (Ascii.compare x y) eqn:Hxy; [|intros _|done].
  - apply Ascii.compare_eq_iff in Hxy as ->.
    destruct (Ascii.compare y z); [apply IH|done..].
  - destruct (Ascii.compare y z) eqn:Hyz; [|intros _|done].
    + apply Ascii.compare_eq_iff in Hyz as <-. intros _. by rewrite Hxy.
    + by rewrite (ascii_compare_lt_trans _ _ _ Hxy Hyz).
Qed.

Lemma string_leb_trans a b c :
  String.leb a b = true -> String.leb b c = true -> String.leb a c = true.
Proof.
  unfold String.leb.
  destruct (String.compare a b) eqn:Hab; [|intros _|done].
  - apply String.compare_eq_iff in Hab as ->. done.
  - destruct (String.compare b c) eqn:Hbc; [|intros _|done].
    + apply String.compare_eq_iff in Hbc as <-. by rewrite Hab.
    + by rewrite (string_compare_lt_trans _ _ _ Hab Hbc).
Qed.

Lemma changeLe_trans {A} (a b c : Change_ A) :
  changeLe a b -> changeLe b c -> changeLe a c.
Proof.
  unfold changeLe. intros [Hab|[Hab Hpab]] [Hbc|[Hbc Hpbc]];
    [left; lia..|].
  right. split; [lia|]. by apply (string_leb_trans _ (pid b)).
Qed.

Lemma changeLe_antisym {A} (a b : Change_ A) :
  changeLe a b -> changeLe b a -> clock a = clock b /\ pid a = pid b.
Proof.
  unfold changeLe. intros [Hab|[Hab Hpab]] [Hba|[Hba Hpba]]; try lia.
  split; [done|]. by apply String.leb_antisym.
Qed.

Lemma sorted_log_unique (l1 l2 : list BackendChange) :
  Sorted changeLe l1 -> Sorted changeLe l2 -> l1 ≡ₚ l2 ->
  (forall a b, a ∈ l1 -> b ∈ l1 -> clock a = clock b -> pid a = pid b -> a = b) ->
  l1 = l2.
Proof.
  intros Hs1 Hs2 Hperm Hkey.
  assert (Htrans : Transitive (changeLe (A:=BackendAction))).
  { intros a b c. apply changeLe_trans. }
  apply (Sorted_unique_strong changeLe); [|done..].
  intros a b Ha Hb Hab Hba.
  destruct (changeLe_antisym _ _ Hab Hba) as [Hc Hp].
  apply Hkey; [done| |done..]. by rewrite Hperm.
Qed.

(** X14. Two instances that hold the same operations converge wherever
    the invariants hold on both: if both logs are in order, both stores
    are what a rebuild gives, and no two different operations share a clock
    and a site token, then the logs are equal as lists and the stores and
    the seen-sets are equal. *)
Theorem replicas_converge_under_invariants (st1 st2 : State) :
  reachable st1 -> reachable st2 ->
  replayed st1 -> replayed st2 ->
  Sorted changeLe (changes st1) -> Sorted changeLe (changes st2) ->
  changes st1 ≡ₚ changes st2 ->
  (forall a b, a ∈ changes st1 -> b ∈ changes st1 ->
               clock a = clock b -> pid a = pid b -> a = b) ->
  changes st1 = changes st2 /\ objects st1 = objects st2 /\ _seen st1 = _seen st2.
Proof.
  intros Hr1 Hr2 Hp1 Hp2 Hs1 Hs2 Hperm Hkey.
  assert (Hlog : changes st1 = changes st2) by by apply sorted_log_unique.
  assert (Hseen : _seen st1 = _seen st2).
  { by rewrite (reachable_seen _ Hr1), (reachable_seen _ Hr2), Hlog. }
  split; [done|]. split; [|done].
  unfold replayed in Hp1, Hp2. rewrite reapplyAllChanges_unfold in Hp1, Hp2.
  rewrite <- Hlog in Hp2.
  rewrite (filter_ready_ext st2 st1) in Hp2.
  2:{ intros c _. unfold ready, seen. by rewrite Hseen. }
  rewrite (forEach_same_store _ (set_objects emptyObjects st1)
             (set_objects emptyObjects st2) _ _ eq_refl Hp1) in Hp2.
  injection Hp2 as Hst. by rewrite <- Hst.
Qed.

End Convergence.

(** ** Failed operations, and a key written, read and deleted *)

Section WriteRead.
Context `{Imports}.

(** X15. An operation returns exactly when the container it addresses
    exists and has the shape the operation needs; an operation that throws
    has written nothing. *)
Theorem operation_fails_before_writing (st : State) (change : BackendChange) :
  (fst (applyChange change st) = Returned tt <->
   admits (objects st !! parentOf (action change)) (action change) = true) /\
  (forall e, fst (applyChange change st) = Threw e ->
             fields (applyChange change st) = st).
Proof.
  unfold applyChange.
  destruct (action change) as [a|a|a|a]; simpl.
  - unfold applyAssignment.
    destruct (objects st !! a_in a) as [[m|l]|] eqn:Hin.
    + rewrite (bind_returned _ _ _ _ _ (getMetaObject_found _ _ _ Hin)).
      rewrite written_and_created. by split.
    + rewrite (bind_returned _ _ _ _ _ (getMetaObject_found _ _ _ Hin)).
      by split.
    + rewrite (bind_threw _ _ _ _ _ (getMetaObject_missing _ _ Hin)). by split.
  - unfold applyListAssignment.
    destruct (objects st !! la_in a) as [[m|l]|] eqn:Hin.
    + rewrite (bind_returned _ _ _ _ _ (getMetaObject_found _ _ _ Hin)).
      by split.
    + rewrite (bind_returned _ _ _ _ _ (getMetaObject_found _ _ _ Hin)).
      rewrite written_and_created. by split.
    + rewrite (bind_threw _ _ _ _ _ (getMetaObject_missing _ _ Hin)). by split.
  - unfold applyInsertion.
    destruct (objects st !! i_in a) as [[m|l]|] eqn:Hin.
    + rewrite (bind_returned _ _ _ _ _ (getMetaObject_found _ _ _ Hin)).
      by split.
    + rewrite (bind_returned _ _ _ _ _ (getMetaObject_found _ _ _ Hin)).
      rewrite written_and_created. by split.
    + rewrite (bind_threw _ _ _ _ _ (getMetaObject_missing _ _ Hin)). by split.
  - unfold applyDeletion.
    destruct (objects st !! d_in a) as [parent|] eqn:Hin.
    + rewrite (bind_returned _ _ _ _ _ (getMetaObject_found _ _ _ Hin)).
      by destruct parent.
    + rewrite (bind_threw _ _ _ _ _ (getMetaObject_missing _ _ Hin)). by split.
Qed.

Lemma getElement_returned path v st :
  fst (getElement path st) = Returned v -> getElement path st = (Returned v, st).
Proof.
  intros Hv. pose proof (reduce_reads (IKey ROOT :: path) (VString ROOT_PARENT) st) as Hs.
  unfold getElement, getElementImpl in *.
  destruct (reduce _ _ st) as [r st1]. simpl in *. by subst.
Qed.

Lemma resolve_key path id m key st :
  fst (getElement path st) = Returned (VString id) ->
  objects st !! id = Some (MMap m) ->
  fst (getElement (path ++ [key]) st) = Returned (entryIdentity (m !! key)).
Proof.
  intros Hpath Hid. rewrite getElement_snoc. unfold bind.
  rewrite (getElement_returned _ _ _ Hpath).
  unfold resolveStep, bind. simpl.
  by rewrite (getMetaObject_found _ _ _ Hid).
Qed.

(** X16. A key written is the key read: after an [Assign] into a map
    container, a path that resolves to that container, extended by the
    assigned key, resolves to the item: to its identity if it is a
    primitive, to its stored value if it is a container. After a [Delete]
    of the item in that container the extended path resolves to an absent
    identity. *)
Theorem assigned_key_resolves
    (st : State) (a : BackendAssignment) (m : gmap Index Entry) (path : list Index) :
  objects st !! a_in a = Some (MMap m) ->
  item_name (a_item a) <> a_in a \/ item_kind (a_item a) = OTHER ->
  let st' := fields (applyAssignment a st) in
  let st'' := fields (applyDeletion (mkDeletion (item_name (a_item a)) (a_in a)) st') in
  (fst (getElement path st') = Returned (VString (a_in a)) ->
   fst (getElement (path ++ [a_at a]) st') = Returned (identityOf (a_item a))) /\
  (fst (getElement path st'') = Returned (VString (a_in a)) ->
   fst (getElement (path ++ [a_at a]) st'') = Returned VUndefined).
Proof.
  intros Hin Hown st' st''.
  assert (Hparent : objects st' !! a_in a
                    = Some (MMap (<[a_at a := entryOf (a_item a)]> m))).
  { unfold st', applyAssignment.
    rewrite (bind_returned _ _ _ _ _ (getMetaObject_found _ _ _ Hin)).
    rewrite written_and_created. unfold fields. cbn [snd].
    destruct (item_kind (a_item a)) eqn:Hk; cbn [objects set_objects];
      [by rewrite lookup_insert_eq|..];
      (destruct Hown as [Hown|Hown]; [|done]);
      by rewrite lookup_insert_ne, lookup_insert_eq. }
  split.
  - intros Hpath. rewrite (resolve_key _ _ _ _ _ Hpath Hparent).
    by rewrite lookup_insert_eq.
  - intros Hpath.
    assert (Hdeleted : objects st'' !! a_in a
              = Some (MMap (tombstone (item_name (a_item a))
                              <$> <[a_at a := entryOf (a_item a)]> m))).
    { unfold st''. rewrite applyDeletion_fields. cbn [objects set_objects d_in d_at].
      by rewrite lookup_alter_eq, Hparent. }
    rewrite (resolve_key _ _ _ _ _ Hpath Hdeleted).
    rewrite lookup_fmap, lookup_insert_eq. simpl.
    unfold tombstone. simpl. by rewrite decide_True.
Qed.

End WriteRead.

(** ** The further properties on concrete logs *)

Lemma seen_set_holds_the_log_witness :
  reachable keyed /\
  ("a@2" ∈ _seen keyed <-> exists c, c ∈ changes keyed /\ toID c = "a@2").
Proof.
  assert (Hr : reachable keyed) by apply reachable_submitAll, reachable_initial.
  split; [exact Hr|]. exact (seen_set_holds_the_log keyed "a@2" Hr).
Defined.

Lemma store_is_replay_of_log_witness :
  accepted holding [awaited] = [ensureBackendChange awaited] /\
  clock (ensureBackendChange awaited) <= this_clock holding /\
  replayed (submit [awaited] holding).
Proof.
  assert (E : accepted holding [awaited] = [ensureBackendChange awaited]) by compute_done.
  assert (Hc : clock (ensureBackendChange awaited) <= this_clock holding) by compute_done.
  split; [exact E|]. split; [exact Hc|].
  destruct (store_is_replay_of_log holding [awaited]) as (_ & Hrebuild & _).
  assert (Hret : void (fst (addChange [awaited] holding)) = Returned tt)
    by (vm_compute; reflexivity).
  unfold replayed, submit. rewrite (Hrebuild _ _ E Hc), Hret. reflexivity.
Defined.

Lemma log_stays_sorted_witness :
  Sorted changeLe (changes (submit [k1] rooted)) /\
  Forall (fun c => clock c <= this_clock (submit [k1] rooted)) (changes (submit [k1] rooted)).
Proof.
  assert (E : changes rooted = [ensureBackendChange r1]) by compute_done.
  assert (Hs : Sorted changeLe (changes rooted)).
  { rewrite E. apply Sorted_cons; [apply Sorted_nil|apply HdRel_nil]. }
  assert (Hc : Forall (fun c => clock c <= this_clock rooted) (changes rooted)).
  { rewrite E. constructor; [compute_done|constructor]. }
  destruct (log_stays_sorted rooted [k1] Hs Hc) as [Hsorted Hclock].
  split; [exact Hsorted|]. apply Hclock. left.
  assert (Ea : accepted rooted [k1] = [ensureBackendChange k1]) by compute_done.
  rewrite Ea. constructor; [compute_done|constructor].
Defined.

Lemma high_water_clock_is_logged_witness :
  (this_clock rooted = 0 \/
   exists c, c ∈ changes rooted /\ clock c = this_clock rooted) /\
  this_clock rooted <= Z.max 0 (greatestClock (changes rooted)) /\
  this_clock rooted <= this_clock (fields (addChange [k1] rooted)).
Proof.
  apply (high_water_clock_is_logged rooted [k1]).
  apply reachable_submitAll, reachable_initial.
Defined.

Lemma latest_passes_the_gate_witness :
  dep (ensureBackendChange k1) = latest rooted /\
  ready rooted (ensureBackendChange k1) = true.
Proof.
  assert (Hd : dep (ensureBackendChange k1) = latest rooted) by compute_done.
  split; [exact Hd|].
  apply (latest_passes_the_gate rooted (ensureBackendChange k1)); [|exact Hd].
  apply reachable_submitAll, reachable_initial.
Defined.

Lemma assignment_writes_key_witness :
  objects rooted !! "r@1" = Some (MMap ∅) /\
  exists m',
    objects (fields (applyAssignment k1Assignment rooted)) !! "r@1" = Some (MMap m') /\
    m' !! IKey "k" = Some (entryOf (a_item k1Assignment)).
Proof.
  assert (Hin : objects rooted !! a_in k1Assignment = Some (MMap ∅)) by compute_done.
  split; [exact Hin|].
  destruct (assignment_writes_key rooted k1Assignment ∅ Hin) as (_ & Hkey & _).
  destruct Hkey as (m' & Hparent & Hentry & _); [right; reflexivity|].
  exists m'. split; [exact Hparent|exact Hentry].
Defined.

Lemma operation_touches_its_containers_only_witness :
  objects (fields (applyChange (ensureBackendChange k1) rooted)) !! ROOT_PARENT
    = objects rooted !! ROOT_PARENT /\
  changes (fields (applyChange (ensureBackendChange k1) rooted)) = changes rooted.
Proof.
  destruct (operation_touches_its_containers_only rooted (ensureBackendChange k1) ROOT_PARENT)
    as (Hstore & Hlog & _); [compute_done|compute_done|].
  split; [exact Hstore|exact Hlog].
Defined.

Lemma first_submit_is_construction_witness :
  addChange (asSubmitted <$> [ensureBackendChange r1; ensureBackendChange k1]) initial
  = returning [ensureBackendChange r1; ensureBackendChange k1]
              (newState [ensureBackendChange r1; ensureBackendChange k1]).
Proof.
  apply first_submit_is_construction.
  - repeat first [apply Sorted_nil | apply HdRel_nil | apply Sorted_cons | apply HdRel_cons];
      unfold changeLt; compute_done.
  - intros c [= <-]. compute_done.
Defined.

Lemma replicas_converge_witness :
  changes replicaY = changes replicaZ /\
  objects replicaY = objects replicaZ /\
  _seen replicaY = _seen replicaZ.
Proof.
  assert (Ey : changes replicaY
               = ensureBackendChange <$> [a1; b1; a2; b2]) by compute_done.
  assert (Ez : changes replicaZ
               = ensureBackendChange <$> [a1; b1; a2; b2]) by compute_done.
  assert (Hsorted : Sorted changeLe (ensureBackendChange <$> [a1; b1; a2; b2])).
  { repeat first [apply Sorted_nil | apply HdRel_nil | apply Sorted_cons | apply HdRel_cons];
      unfold changeLe; compute_done. }
  apply replicas_converge_under_invariants.
  - apply reachable_submitAll, reachable_initial.
  - apply reachable_submitAll, reachable_initial.
  - unfold replayed. vm_compute. reflexivity.
  - unfold replayed. vm_compute. reflexivity.
  - rewrite Ey. exact Hsorted.
  - rewrite Ez. exact Hsorted.
  - rewrite Ey, Ez. reflexivity.
  - rewrite Ey. intros x y Hx Hy.
    apply list_elem_of_In in Hx, Hy.
    destruct Hx as [<-|[<-|[<-|[<-|[]]]]], Hy as [<-|[<-|[<-|[<-|[]]]]];
      intros Hclock Hpid; try reflexivity;
      (discriminate Hclock || discriminate Hpid).
Defined.

Lemma assigned_key_resolves_witness :
  fst (getElement [] (fields (applyAssignment k1Assignment rooted)))
    = Returned (VString "r@1") /\
  fst (getElement [IKey "k"] (fields (applyAssignment k1Assignment rooted)))
    = Returned (VString "a@2").
Proof.
  assert (Hin : objects rooted !! a_in k1Assignment = Some (MMap ∅)) by compute_done.
  assert (Hpath : fst (getElement [] (fields (applyAssignment k1Assignment rooted)))
                  = Returned (VString (a_in k1Assignment))) by compute_done.
  split; [exact Hpath|].
  destruct (assigned_key_resolves rooted k1Assignment ∅ [] Hin) as [Hread _];
    [right; reflexivity|].
  exact (Hread Hpath).
Defined.
